(** * Snowflake identifier generator ([utils/generator_util.py])

    A shallow embedding of [SnowflakeIdGenerator] and of the module-level
    functions built on it, followed by the properties of the generator:
    bit layout, ordering and uniqueness of the identifiers, behaviour on
    clock regression and on sequence roll-over, construction, the
    process-wide registry and the prefixed identifiers.

    Python integers are unbounded, so they are [Z]; [<<], [>>], [|], [&]
    and [^] are [Z.shiftl], [Z.shiftr], [Z.lor], [Z.land] and [Z.lxor],
    which agree with Python on negative numbers (two's complement with
    infinite sign extension).  The wall clock is the list of the readings
    [int(time.time() * 1000)] will deliver, in order; each read consumes
    one.  [with self._lock] makes a whole call of [generate_id] atomic, so
    calls from several threads are one sequence of calls. *)

From Stdlib Require Import ZArith Lia DecimalString Sorted.
From Stdlib Require DecimalZ DecimalPos.
From stdpp Require Import base option list gmap strings.

Local Open Scope Z_scope.

(** ** Exceptions *)

(** The three [ValueError]s of the module differ by their message only. *)
Inductive message : Type :=
| DatacenterIdOutOfRange (max_datacenter : Z)
| WorkerIdOutOfRange (max_worker : Z)
| ClockMovedBackwards.

(** [AttributeError] is what a method call on [None] raises. *)
Inductive exn : Type :=
| ValueError (m : message)
| AttributeError.

(** ** Computations: state, exceptions and waiting *)

(** A computation over a state [S] returns a value, raises, or is still
    waiting for a clock reading after the supplied ones are used up. *)
Inductive outcome (S A : Type) : Type :=
| Return (a : A) (s : S)
| Raise (e : exn) (s : S)
| Blocked.
Arguments Return {S A} a s.
Arguments Raise {S A} e s.
Arguments Blocked {S A}.

Definition M (S A : Type) : Type := S → outcome S A.

#[global] Instance M_ret {S} : MRet (M S) := fun A a s => Return a s.

#[global] Instance M_bind {S} : MBind (M S) := fun A B k m s =>
  match m s with
  | Return a s' => k a s'
  | Raise e s' => Raise e s'
  | Blocked => Blocked
  end.

Definition raise {S A} (e : exn) : M S A := fun s => Raise e s.
Definition get {S A} (f : S → A) : M S A := fun s => Return (f s) s.
Definition modify {S} (f : S → S) : M S unit := fun s => Return tt (f s).

(** ** The class [SnowflakeIdGenerator] *)

Definition EPOCH_TIMESTAMP : Z := 1288834974657.
Definition DATACENTER_ID_BITS : Z := 5.
Definition WORKER_ID_BITS : Z := 5.
Definition SEQUENCE_BITS : Z := 12.

(** [-1 ^ (-1 << bits)] *)
Definition _calculate_max_value (bits : Z) : Z :=
  Z.lxor (-1) (Z.shiftl (-1) bits).

(** The attributes [__init__] sets, the lock apart. *)
Record SnowflakeIdGenerator : Type := {
  _datacenter_id : Z;
  _worker_id : Z;
  _sequence_number : Z;
  _last_timestamp : Z;
  _max_datacenter_id : Z;
  _max_worker_id : Z;
  _max_sequence : Z;
  _worker_id_shift : Z;
  _datacenter_id_shift : Z;
  _timestamp_shift : Z
}.

(** [_validate_ids]: the datacenter id is checked first. *)
Definition _validate_ids (datacenter_id worker_id : Z) : exn + unit :=
  let max_datacenter := _calculate_max_value DATACENTER_ID_BITS in
  let max_worker := _calculate_max_value WORKER_ID_BITS in
  if negb ((0 <=? datacenter_id) && (datacenter_id <=? max_datacenter)) then
    inl (ValueError (DatacenterIdOutOfRange max_datacenter))
  else if negb ((0 <=? worker_id) && (worker_id <=? max_worker)) then
    inl (ValueError (WorkerIdOutOfRange max_worker))
  else inr tt.

(** [__init__]: either the exception of [_validate_ids] or the new object. *)
Definition __init__ (datacenter_id worker_id : Z) : exn + SnowflakeIdGenerator :=
  match _validate_ids datacenter_id worker_id with
  | inl e => inl e
  | inr _ =>
      inr {| _datacenter_id := datacenter_id;
             _worker_id := worker_id;
             _sequence_number := 0;
             _last_timestamp := -1;
             _max_datacenter_id := _calculate_max_value DATACENTER_ID_BITS;
             _max_worker_id := _calculate_max_value WORKER_ID_BITS;
             _max_sequence := _calculate_max_value SEQUENCE_BITS;
             _worker_id_shift := SEQUENCE_BITS;
             _datacenter_id_shift := SEQUENCE_BITS + WORKER_ID_BITS;
             _timestamp_shift :=
               SEQUENCE_BITS + WORKER_ID_BITS + DATACENTER_ID_BITS |}
  end.

(** What a method runs on: the object and the readings the clock has left. *)
Record Env : Type := { self : SnowflakeIdGenerator; clock : list Z }.

Definition attr {A} (f : SnowflakeIdGenerator → A) : M Env A :=
  get (fun w => f (self w)).

(** [self._sequence_number = v] *)
Definition set_sequence_number (v : Z) : M Env unit :=
  modify (fun w =>
    let g := self w in
    {| self := {| _datacenter_id := _datacenter_id g;
                  _worker_id := _worker_id g;
                  _sequence_number := v;
                  _last_timestamp := _last_timestamp g;
                  _max_datacenter_id := _max_datacenter_id g;
                  _max_worker_id := _max_worker_id g;
                  _max_sequence := _max_sequence g;
                  _worker_id_shift := _worker_id_shift g;
                  _datacenter_id_shift := _datacenter_id_shift g;
                  _timestamp_shift := _timestamp_shift g |};
       clock := clock w |}).

(** [self._last_timestamp = v] *)
Definition set_last_timestamp (v : Z) : M Env unit :=
  modify (fun w =>
    let g := self w in
    {| self := {| _datacenter_id := _datacenter_id g;
                  _worker_id := _worker_id g;
                  _sequence_number := _sequence_number g;
                  _last_timestamp := v;
                  _max_datacenter_id := _max_datacenter_id g;
                  _max_worker_id := _max_worker_id g;
                  _max_sequence := _max_sequence g;
                  _worker_id_shift := _worker_id_shift g;
                  _datacenter_id_shift := _datacenter_id_shift g;
                  _timestamp_shift := _timestamp_shift g |};
       clock := clock w |}).

(** [_get_current_timestamp_millis]: the next reading of the clock. *)
Definition _get_current_timestamp_millis : M Env Z :=
  fun w =>
    match clock w with
    | [] => Blocked
    | t :: rest => Return t {| self := self w; clock := rest |}
    end.

(** The loop of [_wait_for_next_millisecond]:
    [while current_timestamp <= last_timestamp: current_timestamp = read()],
    by recursion on the readings that are left. *)
Fixpoint wait_loop (last_timestamp current_timestamp : Z) (readings : list Z)
  : option (Z * list Z) :=
  if current_timestamp <=? last_timestamp then
    match readings with
    | [] => None
    | t :: rest => wait_loop last_timestamp t rest
    end
  else Some (current_timestamp, readings).

Definition spin (last_timestamp current_timestamp : Z) : M Env Z :=
  fun w =>
    match wait_loop last_timestamp current_timestamp (clock w) with
    | None => Blocked
    | Some (t, rest) => Return t {| self := self w; clock := rest |}
    end.

Definition _wait_for_next_millisecond (last_timestamp : Z) : M Env Z :=
  current_timestamp ← _get_current_timestamp_millis;
  spin last_timestamp current_timestamp.

Definition _build_snowflake_id (timestamp : Z) : M Env Z :=
  timestamp_shift ← attr _timestamp_shift;
  datacenter_id ← attr _datacenter_id;
  datacenter_id_shift ← attr _datacenter_id_shift;
  worker_id ← attr _worker_id;
  worker_id_shift ← attr _worker_id_shift;
  sequence_number ← attr _sequence_number;
  mret (Z.lor (Z.lor (Z.lor
         (Z.shiftl (timestamp - EPOCH_TIMESTAMP) timestamp_shift)
         (Z.shiftl datacenter_id datacenter_id_shift))
         (Z.shiftl worker_id worker_id_shift))
         sequence_number).

(** [generate_id], the body of [with self._lock]. *)
Definition generate_id : M Env Z :=
  current_timestamp ← _get_current_timestamp_millis;
  last_timestamp ← attr _last_timestamp;
  if current_timestamp <? last_timestamp then
    raise (ValueError ClockMovedBackwards)
  else
    current_timestamp ←
      (if current_timestamp =? last_timestamp then
         sequence_number ← attr _sequence_number;
         max_sequence ← attr _max_sequence;
         set_sequence_number (Z.land (sequence_number + 1) max_sequence);;
         sequence_number ← attr _sequence_number;
         if sequence_number =? 0 then
           last_timestamp ← attr _last_timestamp;
           _wait_for_next_millisecond last_timestamp
         else mret current_timestamp
       else
         set_sequence_number 0;;
         mret current_timestamp);
    set_last_timestamp current_timestamp;;
    _build_snowflake_id current_timestamp.

(** ** The module: objects, the global variable and the functions *)

(** Objects live at addresses; [_global_generator] holds [None] or the
    address of a generator; the clock is the one of the process. *)
Record Process : Type := {
  heap : gmap nat SnowflakeIdGenerator;
  _global_generator : option nat;
  wall_clock : list Z
}.

(** [SnowflakeIdGenerator(datacenter_id, worker_id)]: when [__init__]
    returns, the new object is at an address no object has yet. *)
Definition new_SnowflakeIdGenerator (datacenter_id worker_id : Z)
  : M Process nat :=
  fun p =>
    match __init__ datacenter_id worker_id with
    | inl e => Raise e p
    | inr g =>
        let l := fresh (dom (heap p)) in
        Return l {| heap := <[l := g]> (heap p);
                    _global_generator := _global_generator p;
                    wall_clock := wall_clock p |}
    end.

(** [obj.method()]: the method runs on the object at that address and on
    the clock of the process; what it did to the object stays, also when
    it raises.  [None] has no methods.  An address without an object is
    not a Python value: the case is there for totality only. *)
Definition call {A} (obj : option nat) (method : M Env A) : M Process A :=
  fun p =>
    match obj with
    | None => Raise AttributeError p
    | Some l =>
        match heap p !! l with
        | None => Blocked
        | Some g =>
            let store w :=
              {| heap := <[l := self w]> (heap p);
                 _global_generator := _global_generator p;
                 wall_clock := clock w |} in
            match method {| self := g; clock := wall_clock p |} with
            | Return a w => Return a (store w)
            | Raise e w => Raise e (store w)
            | Blocked => Blocked
            end
        end
    end.

(** [_global_generator = v] *)
Definition set_global_generator (v : option nat) : M Process unit :=
  modify (fun p =>
    {| heap := heap p; _global_generator := v; wall_clock := wall_clock p |}).

(** [get_global_id_generator]; the arguments default to 1 and 1.  The
    inner test is the one made again under [_generator_lock]. *)
Definition get_global_id_generator (datacenter_id worker_id : Z)
  : M Process (option nat) :=
  g ← get _global_generator;
  match g with
  | None =>
      g ← get _global_generator;
      match g with
      | None =>
          l ← new_SnowflakeIdGenerator datacenter_id worker_id;
          set_global_generator (Some l)
      | Some _ => mret tt
      end
  | Some _ => mret tt
  end;;
  get _global_generator.

Definition generate_simple_id : M Process Z :=
  generator ← get_global_id_generator 1 1;
  call generator generate_id.

(** [str] of an integer: decimal digits, ["-"] before a negative one. *)
Definition str (n : Z) : string := NilZero.string_of_int (Z.to_int n).

(** [create_unique_id_with_prefix]; the ids default to 1 and 1. *)
Definition create_unique_id_with_prefix (prefix : string)
    (datacenter_id worker_id : Z) : M Process string :=
  id_generator ← new_SnowflakeIdGenerator datacenter_id worker_id;
  snowflake_id ← call (Some id_generator) generate_id;
  mret (prefix +:+ str snowflake_id).

Definition create_custom_generator (datacenter_id worker_id : Z)
  : M Process nat :=
  new_SnowflakeIdGenerator datacenter_id worker_id.

(** ** Runs of calls on one instance *)

(** What a caller sees of one call of [generate_id]. *)
Inductive reply : Type :=
| Issued (id : Z)
| Refused (e : exn).

(** [n] calls in a row, the caller going on after an exception; a call
    that never returns ends the run. *)
Fixpoint calls (n : nat) (w : Env) : list reply :=
  match n with
  | O => []
  | S n' =>
      match generate_id w with
      | Return id w' => Issued id :: calls n' w'
      | Raise e w' => Refused e :: calls n' w'
      | Blocked => []
      end
  end.

(** The identifiers returned, in the order of the calls. *)
Fixpoint issued (rs : list reply) : list Z :=
  match rs with
  | [] => []
  | Issued id :: rs' => id :: issued rs'
  | Refused _ :: rs' => issued rs'
  end.

(** ** The layout of an identifier *)

(** The identifier an object would return for its own [_last_timestamp]
    and [_sequence_number]: what [_build_snowflake_id] computes once
    [generate_id] has stored the effective timestamp. *)
Definition id_of (g : SnowflakeIdGenerator) : Z :=
  Z.lor (Z.lor (Z.lor
    (Z.shiftl (_last_timestamp g - EPOCH_TIMESTAMP) (_timestamp_shift g))
    (Z.shiftl (_datacenter_id g) (_datacenter_id_shift g)))
    (Z.shiftl (_worker_id g) (_worker_id_shift g)))
    (_sequence_number g).

(** The object with a new sequence number and a new last timestamp. *)
Definition update (g : SnowflakeIdGenerator) (sequence_number timestamp : Z)
  : SnowflakeIdGenerator :=
  {| _datacenter_id := _datacenter_id g;
     _worker_id := _worker_id g;
     _sequence_number := sequence_number;
     _last_timestamp := timestamp;
     _max_datacenter_id := _max_datacenter_id g;
     _max_worker_id := _max_worker_id g;
     _max_sequence := _max_sequence g;
     _worker_id_shift := _worker_id_shift g;
     _datacenter_id_shift := _datacenter_id_shift g;
     _timestamp_shift := _timestamp_shift g |}.

(** An object as [__init__ datacenter_id worker_id] leaves it, up to the
    two attributes [generate_id] assigns. *)
Record configured (datacenter_id worker_id : Z) (g : SnowflakeIdGenerator)
  : Prop := {
  cfg_datacenter : _datacenter_id g = datacenter_id;
  cfg_worker : _worker_id g = worker_id;
  cfg_datacenter_range : 0 <= datacenter_id <= 31;
  cfg_worker_range : 0 <= worker_id <= 31;
  cfg_sequence_range : 0 <= _sequence_number g <= 4095;
  cfg_max_sequence : _max_sequence g = 4095;
  cfg_worker_shift : _worker_id_shift g = 12;
  cfg_datacenter_shift : _datacenter_id_shift g = 17;
  cfg_timestamp_shift : _timestamp_shift g = 22
}.

(** The states of an instance built with the given ids: the new object
    with any clock, and what a call of [generate_id] leaves, whether it
    returned or raised. *)
Inductive reachable (datacenter_id worker_id : Z) : Env → Prop :=
| reach_init g c :
    __init__ datacenter_id worker_id = inr g →
    reachable datacenter_id worker_id {| self := g; clock := c |}
| reach_return w id w' :
    reachable datacenter_id worker_id w →
    generate_id w = Return id w' →
    reachable datacenter_id worker_id w'
| reach_raise w e w' :
    reachable datacenter_id worker_id w →
    generate_id w = Raise e w' →
    reachable datacenter_id worker_id w'.

(** The two ways a call moves on from [(last timestamp, sequence)]: the
    next sequence number in the same millisecond, or sequence 0 in a later
    one. *)
Definition advances (g : SnowflakeIdGenerator) (s t : Z) : Prop :=
  (t = _last_timestamp g ∧
   s = Z.land (_sequence_number g + 1) (_max_sequence g) ∧ s ≠ 0)
  ∨ (_last_timestamp g < t ∧ s = 0).

(** The object [SnowflakeIdGenerator(1, 1)], the ids the module-level
    functions default to. *)
Definition default_generator : SnowflakeIdGenerator :=
  {| _datacenter_id := 1; _worker_id := 1;
     _sequence_number := 0; _last_timestamp := -1;
     _max_datacenter_id := 31; _max_worker_id := 31;
     _max_sequence := 4095; _worker_id_shift := 12;
     _datacenter_id_shift := 17; _timestamp_shift := 22 |}.

(** ** Runs of calls of the module's functions *)

(** What a user of the module can ask for: the four functions of the
    module, and [generate_id] on an object it holds. *)
Inductive request : Type :=
| GenerateSimpleId
| GetGlobalIdGenerator (datacenter_id worker_id : Z)
| CreateUniqueIdWithPrefix (prefix : string) (datacenter_id worker_id : Z)
| CreateCustomGenerator (datacenter_id worker_id : Z)
| GenerateId (obj : nat).

(** What the user gets back. *)
Inductive response : Type :=
| Id (id : Z)
| Text (s : string)
| Instance (obj : option nat)
| Error (e : exn).

Definition serve (r : request) : M Process response :=
  match r with
  | GenerateSimpleId =>
      id ← generate_simple_id; mret (Id id)
  | GetGlobalIdGenerator datacenter_id worker_id =>
      obj ← get_global_id_generator datacenter_id worker_id;
      mret (Instance obj)
  | CreateUniqueIdWithPrefix prefix datacenter_id worker_id =>
      s ← create_unique_id_with_prefix prefix datacenter_id worker_id;
      mret (Text s)
  | CreateCustomGenerator datacenter_id worker_id =>
      obj ← create_custom_generator datacenter_id worker_id;
      mret (Instance (Some obj))
  | GenerateId obj =>
      id ← call (Some obj) generate_id; mret (Id id)
  end.

(** The requests in a row, the user going on after an exception; a
    request that never returns ends the run. *)
Fixpoint session (rs : list request) (p : Process) : list response :=
  match rs with
  | [] => []
  | r :: rs' =>
      match serve r p with
      | Return a p' => a :: session rs' p'
      | Raise e p' => Error e :: session rs' p'
      | Blocked => []
      end
  end.

(** The object [_global_generator] refers to, if any. *)
Definition singleton (p : Process) : option SnowflakeIdGenerator :=
  match _global_generator p with
  | Some l => heap p !! l
  | None => None
  end.

(** [_global_generator] is [None] or the address of a generator as the
    constructor and [generate_id] leave one. *)
Definition registry_ok (p : Process) : Prop :=
  ∀ l, _global_generator p = Some l →
       ∃ dc wk g, heap p !! l = Some g ∧ configured dc wk g.

(** The process when the module has just been imported, with the
    readings its clock will deliver. *)
Definition start (readings : list Z) : Process :=
  {| heap := ∅; _global_generator := None; wall_clock := readings |}.

(** From [p] to [p']: the registry is still in order, and the instance
    it held, if any, is still there with an identifier that did not go
    down. *)
Definition grows (p p' : Process) : Prop :=
  registry_ok p' ∧
  ∀ g, singleton p = Some g →
       ∃ g', singleton p' = Some g' ∧ id_of g <= id_of g'.

(** * Properties *)

(** ** Arithmetic of the bit fields *)

Section Layout.

Lemma land_shifted_small hi lo k :
  0 <= k → 0 <= lo < 2 ^ k → Z.land (hi * 2 ^ k) lo = 0.
Proof.
  intros Hk [Hlo Hlt]. apply Z.bits_inj'. intros n Hn.
  rewrite Z.land_spec, Z.bits_0.
  destruct (Z.lt_ge_cases n k) as [Hnk | Hnk].
  - rewrite Z.mul_pow2_bits_low by lia. reflexivity.
  - assert (Hbit : Z.testbit lo n = false).
    { destruct (Z.eq_dec lo 0) as [-> | Hne]; [apply Z.bits_0 |].
      apply Z.bits_above_log2; [lia |].
      apply Z.lt_le_trans with k; [| lia].
      apply Z.log2_lt_pow2; lia. }
    rewrite Hbit. apply andb_false_r.
Qed.

Lemma lor_shifted_small hi lo k :
  0 <= k → 0 <= lo < 2 ^ k → Z.lor (hi * 2 ^ k) lo = hi * 2 ^ k + lo.
Proof.
  intros Hk Hlo.
  rewrite <- Z.lxor_lor by (apply land_shifted_small; assumption).
  symmetry. apply Z.add_nocarry_lxor.
  apply land_shifted_small; assumption.
Qed.

(** With every field in its range, [|] adds the shifted fields up. *)
Lemma layout_sum delta dc wk s :
  0 <= dc <= 31 → 0 <= wk <= 31 → 0 <= s <= 4095 →
  Z.lor (Z.lor (Z.lor (Z.shiftl delta 22) (Z.shiftl dc 17))
               (Z.shiftl wk 12)) s
  = delta * 4194304 + dc * 131072 + wk * 4096 + s.
Proof.
  intros Hdc Hwk Hs.
  rewrite !Z.shiftl_mul_pow2 by lia.
  replace (dc * 2 ^ 17) with ((dc * 32) * 2 ^ 12) by lia.
  replace (delta * 2 ^ 22) with ((delta * 1024) * 2 ^ 12) by lia.
  rewrite <- !Z.lor_assoc.
  assert (Hlow : Z.lor (wk * 2 ^ 12) s = wk * 2 ^ 12 + s)
    by (apply lor_shifted_small; lia).
  rewrite Hlow.
  replace (dc * 32 * 2 ^ 12) with (dc * 2 ^ 17) by lia.
  rewrite (lor_shifted_small dc _ 17) by lia.
  replace (delta * 1024 * 2 ^ 12) with (delta * 2 ^ 22) by lia.
  rewrite (lor_shifted_small delta _ 22) by lia.
  lia.
Qed.

End Layout.

(** ** One call of [generate_id] *)

Section OneCall.

Variable g : SnowflakeIdGenerator.

(** A call without a clock reading has no outcome. *)
Lemma generate_id_no_reading :
  generate_id {| self := g; clock := [] |} = Blocked.
Proof. reflexivity. Qed.

(** The clock went backwards: the exception, the object as it was. *)
Lemma generate_id_backwards t c :
  t < _last_timestamp g →
  generate_id {| self := g; clock := t :: c |}
  = Raise (ValueError ClockMovedBackwards) {| self := g; clock := c |}.
Proof.
  intros Hlt. unfold generate_id, mbind, M_bind; simpl.
  destruct (Z.ltb_spec t (_last_timestamp g)); [reflexivity | lia].
Qed.

(** A later millisecond: the sequence starts again at 0. *)
Lemma generate_id_later t c :
  _last_timestamp g < t →
  generate_id {| self := g; clock := t :: c |}
  = Return (id_of (update g 0 t)) {| self := update g 0 t; clock := c |}.
Proof.
  intros Hlt. unfold generate_id, mbind, M_bind; simpl.
  destruct (Z.ltb_spec t (_last_timestamp g)); [lia |].
  destruct (Z.eqb_spec t (_last_timestamp g)); [lia |].
  reflexivity.
Qed.

(** The same millisecond, the sequence not used up: the next number. *)
Lemma generate_id_same t c :
  t = _last_timestamp g →
  Z.land (_sequence_number g + 1) (_max_sequence g) ≠ 0 →
  let s := Z.land (_sequence_number g + 1) (_max_sequence g) in
  generate_id {| self := g; clock := t :: c |}
  = Return (id_of (update g s t)) {| self := update g s t; clock := c |}.
Proof.
  intros Ht Hs s. unfold generate_id, mbind, M_bind; simpl.
  destruct (Z.ltb_spec t (_last_timestamp g)); [lia |].
  destruct (Z.eqb_spec t (_last_timestamp g)); [| lia].
  simpl. fold s.
  destruct (Z.eqb_spec s 0); [contradiction |].
  reflexivity.
Qed.

(** The same millisecond, the sequence used up: the call goes on reading
    the clock, and its outcome is the one of the loop. *)
Lemma generate_id_wrap t c :
  t = _last_timestamp g →
  Z.land (_sequence_number g + 1) (_max_sequence g) = 0 →
  generate_id {| self := g; clock := t :: c |}
  = match c with
    | [] => Blocked
    | t1 :: c1 =>
        match wait_loop (_last_timestamp g) t1 c1 with
        | None => Blocked
        | Some (t', c') =>
            Return (id_of (update g 0 t'))
                   {| self := update g 0 t'; clock := c' |}
        end
    end.
Proof.
  intros Ht Hs. unfold generate_id, mbind, M_bind; simpl.
  destruct (Z.ltb_spec t (_last_timestamp g)); [lia |].
  destruct (Z.eqb_spec t (_last_timestamp g)); [| lia].
  simpl. rewrite Hs. simpl.
  destruct c as [| t1 c1]; [reflexivity |].
  unfold _wait_for_next_millisecond, spin, mbind, M_bind; simpl.
  destruct (wait_loop (_last_timestamp g) t1 c1) as [[t' c'] |]; reflexivity.
Qed.

End OneCall.

(** ** The waiting loop *)

Lemma wait_loop_found last cur pre t post :
  cur <= last → Forall (fun x => x <= last) pre → last < t →
  wait_loop last cur (pre ++ t :: post) = Some (t, post).
Proof.
  intros Hcur Hpre Ht. revert cur Hcur.
  induction Hpre as [| x pre Hx _ IH]; intros cur Hcur; simpl.
  - destruct (Z.leb_spec cur last); [| lia].
    destruct post; simpl; destruct (Z.leb_spec t last); (lia || reflexivity).
  - destruct (Z.leb_spec cur last); [| lia]. apply IH, Hx.
Qed.

Lemma wait_loop_starved last cur c :
  cur <= last → Forall (fun x => x <= last) c → wait_loop last cur c = None.
Proof.
  intros Hcur Hc. revert cur Hcur.
  induction Hc as [| x c Hx _ IH]; intros cur Hcur; simpl;
    destruct (Z.leb_spec cur last); try lia; [reflexivity | apply IH, Hx].
Qed.

Lemma wait_loop_inv last cur c t c' :
  wait_loop last cur c = Some (t, c') →
  last < t ∧
  ∃ pre, cur :: c = pre ++ t :: c' ∧ Forall (fun x => x <= last) pre.
Proof.
  revert cur. induction c as [| x c IH]; intros cur; simpl;
    destruct (Z.leb_spec cur last) as [Hle | Hgt]; intros Heq.
  - discriminate.
  - injection Heq as <- <-. split; [lia |]. exists []. split; [reflexivity | constructor].
  - destruct (IH _ Heq) as [Hlt [pre [Hsplit Hpre]]].
    split; [exact Hlt |]. exists (cur :: pre). split.
    + simpl. rewrite Hsplit. reflexivity.
    + constructor; assumption.
  - injection Heq as <- <-. split; [lia |]. exists []. split; [reflexivity | constructor].
Qed.

(** ** What a call that returns, or raises, has done *)

Lemma generate_id_Return g c id w' :
  generate_id {| self := g; clock := c |} = Return id w' →
  ∃ s t pre,
    c = pre ++ t :: clock w' ∧
    Forall (fun x => x <= _last_timestamp g) pre ∧
    self w' = update g s t ∧
    id = id_of (update g s t) ∧
    advances g s t.
Proof.
  destruct c as [| t c]; [discriminate |].
  destruct (Z.lt_total t (_last_timestamp g)) as [Hlt | [Heq | Hgt]].
  - rewrite generate_id_backwards by exact Hlt. discriminate.
  - destruct (Z.eq_dec (Z.land (_sequence_number g + 1) (_max_sequence g)) 0)
      as [Hs | Hs].
    + rewrite generate_id_wrap by assumption.
      destruct c as [| t1 c1]; [discriminate |].
      destruct (wait_loop (_last_timestamp g) t1 c1) as [[t' c'] |] eqn:Hw;
        [| discriminate].
      intros [= <- <-].
      destruct (wait_loop_inv _ _ _ _ _ Hw) as [Hlt [pre [Hsplit Hpre]]].
      exists 0, t', (t :: pre). simpl. rewrite Hsplit.
      repeat split; try reflexivity.
      * constructor; [lia | exact Hpre].
      * right. split; [exact Hlt | reflexivity].
    + rewrite generate_id_same by assumption.
      intros [= <- <-].
      exists (Z.land (_sequence_number g + 1) (_max_sequence g)), t, [].
      repeat split; try reflexivity; [constructor |].
      left. split; [exact Heq | split; [reflexivity | exact Hs]].
  - rewrite generate_id_later by exact Hgt.
    intros [= <- <-]. exists 0, t, [].
    repeat split; try reflexivity; [constructor |].
    right. split; [exact Hgt | reflexivity].
Qed.

Lemma generate_id_Raise g c e w' :
  generate_id {| self := g; clock := c |} = Raise e w' →
  ∃ t, c = t :: clock w' ∧ t < _last_timestamp g ∧
       self w' = g ∧ e = ValueError ClockMovedBackwards.
Proof.
  destruct c as [| t c]; [discriminate |].
  destruct (Z.lt_total t (_last_timestamp g)) as [Hlt | [Heq | Hgt]].
  - rewrite generate_id_backwards by exact Hlt.
    intros [= <- <-]. exists t. repeat split. exact Hlt.
  - destruct (Z.eq_dec (Z.land (_sequence_number g + 1) (_max_sequence g)) 0)
      as [Hs | Hs].
    + rewrite generate_id_wrap by assumption.
      destruct c as [| t1 c1]; [discriminate |].
      destruct (wait_loop (_last_timestamp g) t1 c1) as [[t' c'] |];
        discriminate.
    + rewrite generate_id_same by assumption. discriminate.
  - rewrite generate_id_later by exact Hgt. discriminate.
Qed.

(** ** Construction and the attributes that stay *)

Lemma max_values :
  _calculate_max_value DATACENTER_ID_BITS = 31 ∧
  _calculate_max_value WORKER_ID_BITS = 31 ∧
  _calculate_max_value SEQUENCE_BITS = 4095.
Proof. repeat split. Qed.

Lemma validate_ids_ok dc wk :
  _validate_ids dc wk = inr tt ↔ 0 <= dc <= 31 ∧ 0 <= wk <= 31.
Proof.
  unfold _validate_ids.
  change (_calculate_max_value DATACENTER_ID_BITS) with 31.
  change (_calculate_max_value WORKER_ID_BITS) with 31.
  destruct (Z.leb_spec 0 dc), (Z.leb_spec dc 31),
           (Z.leb_spec 0 wk), (Z.leb_spec wk 31); simpl;
    split; (discriminate || reflexivity || lia).
Qed.

Lemma init_inv dc wk g :
  __init__ dc wk = inr g →
  (0 <= dc <= 31 ∧ 0 <= wk <= 31) ∧
  g = {| _datacenter_id := dc; _worker_id := wk;
         _sequence_number := 0; _last_timestamp := -1;
         _max_datacenter_id := 31; _max_worker_id := 31;
         _max_sequence := 4095; _worker_id_shift := 12;
         _datacenter_id_shift := 17; _timestamp_shift := 22 |}.
Proof.
  unfold __init__. destruct (_validate_ids dc wk) as [e | []] eqn:Hv;
    [discriminate |].
  intros [= <-]. split; [apply validate_ids_ok, Hv | reflexivity].
Qed.

Lemma init_configured dc wk g :
  __init__ dc wk = inr g → configured dc wk g.
Proof.
  intros Hg. destruct (init_inv _ _ _ Hg) as [[Hdc Hwk] ->].
  constructor; simpl; (reflexivity || lia).
Qed.

Lemma land_max_sequence x : Z.land x 4095 = x mod 4096.
Proof. change 4095 with (Z.ones 12). rewrite Z.land_ones by lia. reflexivity. Qed.

Lemma advances_configured dc wk g s t :
  configured dc wk g → advances g s t →
  configured dc wk (update g s t) ∧
  ((t = _last_timestamp g ∧ s = _sequence_number g + 1) ∨
   (_last_timestamp g < t ∧ s = 0)).
Proof.
  intros [] Hadv.
  assert (Hs : 0 <= s <= 4095 ∧
               ((t = _last_timestamp g ∧ s = _sequence_number g + 1) ∨
                (_last_timestamp g < t ∧ s = 0))).
  { destruct Hadv as [[Ht [Hs Hne]] | [Ht Hs]]; [| lia].
    rewrite cfg_max_sequence0, land_max_sequence in Hs.
    destruct (Z.eq_dec (_sequence_number g) 4095) as [Hfull | Hroom].
    - rewrite Hfull in Hs. simpl in Hs. contradiction.
    - rewrite Z.mod_small in Hs by lia. lia. }
  destruct Hs as [Hs Hcase].
  split; [constructor; simpl; assumption | exact Hcase].
Qed.

Lemma id_of_sum dc wk g :
  configured dc wk g →
  id_of g = (_last_timestamp g - EPOCH_TIMESTAMP) * 4194304
            + dc * 131072 + wk * 4096 + _sequence_number g.
Proof.
  intros []. unfold id_of.
  rewrite cfg_timestamp_shift0, cfg_datacenter_shift0, cfg_worker_shift0,
    cfg_datacenter0, cfg_worker0.
  apply layout_sum; assumption.
Qed.

(** A call that returns moves the identifier of the object strictly up. *)
Lemma advances_lt dc wk g s t :
  configured dc wk g → advances g s t → id_of g < id_of (update g s t).
Proof.
  intros Hg Hadv.
  destruct (advances_configured _ _ _ _ _ Hg Hadv) as [Hg' Hcase].
  rewrite (id_of_sum _ _ _ Hg), (id_of_sum _ _ _ Hg'). simpl.
  destruct Hg. lia.
Qed.

Lemma generate_id_configured dc wk w id w' :
  configured dc wk (self w) → generate_id w = Return id w' →
  configured dc wk (self w') ∧ id = id_of (self w') ∧ id_of (self w) < id.
Proof.
  destruct w as [g c]; simpl. intros Hg Hret.
  destruct (generate_id_Return _ _ _ _ Hret)
    as [s [t [pre [_ [_ [Hself [-> Hadv]]]]]]].
  rewrite Hself. split; [| split].
  - eapply advances_configured; eassumption.
  - reflexivity.
  - eapply advances_lt; eassumption.
Qed.

Lemma reachable_configured dc wk w :
  reachable dc wk w → configured dc wk (self w).
Proof.
  induction 1 as [g c Hg | w id w' _ IH Hret | w e w' _ IH Hraise].
  - apply init_configured, Hg.
  - eapply generate_id_configured; eassumption.
  - destruct w as [g c].
    destruct (generate_id_Raise _ _ _ _ Hraise) as [_ [_ [_ [-> _]]]].
    exact IH.
Qed.

(** ** Runs of calls *)

Lemma issued_lookup rs i id :
  rs !! i = Some (Issued id) → id ∈ issued rs.
Proof.
  revert i. induction rs as [| r rs IH]; intros [| i] Hi; try discriminate.
  - injection Hi as ->. simpl. left.
  - destruct r; simpl; [right |]; eapply IH, Hi.
Qed.

Lemma calls_step n w :
  calls (S n) w =
  match generate_id w with
  | Return id w' => Issued id :: calls n w'
  | Raise e w' => Refused e :: calls n w'
  | Blocked => []
  end.
Proof. reflexivity. Qed.

(** Every identifier of a run is above the one the object stood at. *)
Lemma calls_above dc wk n w :
  configured dc wk (self w) →
  Forall (fun id => id_of (self w) < id) (issued (calls n w)).
Proof.
  revert w. induction n as [| n IH]; intros w Hw; [constructor |].
  rewrite calls_step. destruct (generate_id w) as [id w' | e w' |] eqn:Hgen.
  - destruct (generate_id_configured _ _ _ _ _ Hw Hgen) as [Hw' [Hid Hlt]].
    simpl. constructor; [exact Hlt |].
    eapply Forall_impl; [apply IH, Hw' |].
    intros x Hx. simpl in Hx. lia.
  - destruct w as [g c].
    destruct (generate_id_Raise _ _ _ _ Hgen) as [_ [_ [_ [Hself _]]]].
    simpl. rewrite <- Hself. apply IH. rewrite Hself. exact Hw.
  - constructor.
Qed.

(** A later call of a run returns a larger identifier. *)
Lemma calls_increasing dc wk n w i j a b :
  configured dc wk (self w) → (i < j)%nat →
  calls n w !! i = Some (Issued a) →
  calls n w !! j = Some (Issued b) →
  a < b.
Proof.
  revert w i j. induction n as [| n IH]; intros w i j Hw Hij; [discriminate |].
  rewrite calls_step. destruct (generate_id w) as [id w' | e w' |] eqn:Hgen;
    [| | discriminate].
  - destruct (generate_id_configured _ _ _ _ _ Hw Hgen) as [Hw' [Hid Hlt]].
    destruct j as [| j]; [lia |]. destruct i as [| i]; simpl.
    + intros [= <-] Hb. apply issued_lookup in Hb.
      pose proof (calls_above _ _ n _ Hw') as Habove.
      rewrite Forall_forall in Habove. specialize (Habove _ Hb). lia.
    + apply IH; [exact Hw' | lia].
  - destruct w as [g c].
    destruct (generate_id_Raise _ _ _ _ Hgen) as [_ [_ [_ [Hself _]]]].
    destruct j as [| j]; [lia |]. destruct i as [| i]; simpl; [discriminate |].
    apply IH; [rewrite Hself; exact Hw | lia].
Qed.

Lemma calls_sorted dc wk n w :
  configured dc wk (self w) → StronglySorted Z.lt (issued (calls n w)).
Proof.
  revert w. induction n as [| n IH]; intros w Hw; [constructor |].
  rewrite calls_step. destruct (generate_id w) as [id w' | e w' |] eqn:Hgen.
  - destruct (generate_id_configured _ _ _ _ _ Hw Hgen) as [Hw' [Hid Hlt]].
    simpl. constructor; [apply IH, Hw' |].
    rewrite Hid. apply (calls_above dc wk), Hw'.
  - destruct w as [g c].
    destruct (generate_id_Raise _ _ _ _ Hgen) as [_ [_ [_ [Hself _]]]].
    simpl. apply IH. rewrite Hself. exact Hw.
  - constructor.
Qed.

Lemma sorted_lt_NoDup (l : list Z) : StronglySorted Z.lt l → NoDup l.
Proof.
  induction 1 as [| x l _ IH Hx]; constructor; [| exact IH].
  intros Hin. rewrite Forall_forall in Hx. specialize (Hx _ Hin). lia.
Qed.

(** ** Calls within one millisecond *)

Section SameMillisecond.

Variables (dc wk : Z) (g : SnowflakeIdGenerator).
Hypothesis Hg : configured dc wk g.

Lemma land_next_sequence :
  Z.land (_sequence_number g + 1) (_max_sequence g)
  = (_sequence_number g + 1) mod 4096.
Proof. destruct Hg. rewrite cfg_max_sequence0. apply land_max_sequence. Qed.

(** Room left in the sequence: the next number, on the reading itself. *)
Lemma generate_id_next c :
  _sequence_number g < 4095 →
  generate_id {| self := g; clock := _last_timestamp g :: c |}
  = Return (id_of (update g (_sequence_number g + 1) (_last_timestamp g)))
      {| self := update g (_sequence_number g + 1) (_last_timestamp g);
         clock := c |}.
Proof.
  intros Hroom.
  assert (Hs : Z.land (_sequence_number g + 1) (_max_sequence g)
               = _sequence_number g + 1).
  { rewrite land_next_sequence. destruct Hg. apply Z.mod_small. lia. }
  pose proof (generate_id_same g (_last_timestamp g) c eq_refl) as Hsame.
  rewrite Hs in Hsame. apply Hsame. destruct Hg. lia.
Qed.

(** The sequence used up: the readings up to the last timestamp are
    passed over, the first one above it is the effective timestamp. *)
Lemma generate_id_spin pre t' post :
  _sequence_number g = 4095 →
  Forall (fun x => x <= _last_timestamp g) pre → _last_timestamp g < t' →
  generate_id {| self := g; clock := _last_timestamp g :: pre ++ t' :: post |}
  = Return (id_of (update g 0 t')) {| self := update g 0 t'; clock := post |}.
Proof.
  intros Hfull Hpre Ht'.
  rewrite generate_id_wrap;
    [| reflexivity | rewrite land_next_sequence, Hfull; reflexivity].
  destruct Hpre as [| x pre Hx Hpre]; simpl.
  - destruct (Z.leb_spec t' (_last_timestamp g)); [lia |].
    destruct post; simpl; destruct (Z.leb_spec t' (_last_timestamp g));
      (lia || reflexivity).
  - rewrite wait_loop_found by assumption. reflexivity.
Qed.

(** The sequence used up and no later reading: the call does not return. *)
Lemma generate_id_starved c :
  _sequence_number g = 4095 →
  Forall (fun x => x <= _last_timestamp g) c →
  generate_id {| self := g; clock := _last_timestamp g :: c |} = Blocked.
Proof.
  intros Hfull Hc.
  rewrite generate_id_wrap;
    [| reflexivity | rewrite land_next_sequence, Hfull; reflexivity].
  destruct Hc as [| x c Hx Hc]; [reflexivity |].
  rewrite wait_loop_starved by assumption. reflexivity.
Qed.

End SameMillisecond.

Lemma update_update g s1 t1 s2 t2 :
  update (update g s1 t1) s2 t2 = update g s2 t2.
Proof. reflexivity. Qed.

Lemma update_same g :
  update g (_sequence_number g) (_last_timestamp g) = g.
Proof. destruct g. reflexivity. Qed.

Lemma configured_update dc wk g s t :
  configured dc wk g → 0 <= s <= 4095 → configured dc wk (update g s t).
Proof. intros [] Hs. constructor; simpl; assumption. Qed.

(** [m] calls on [m] readings of the last timestamp, the sequence having
    room for them, return the next [m] sequence numbers. *)
Lemma calls_same_millisecond dc wk m : ∀ g c n,
  configured dc wk g →
  _sequence_number g + Z.of_nat m <= 4095 →
  calls (m + n) {| self := g; clock := repeat (_last_timestamp g) m ++ c |}
  = map (fun i : nat =>
           Issued (id_of (update g (_sequence_number g + Z.of_nat i)
                                   (_last_timestamp g))))
        (seq 1 m)
    ++ calls n {| self := update g (_sequence_number g + Z.of_nat m)
                                 (_last_timestamp g);
                  clock := c |}.
Proof.
  induction m as [| m IH]; intros g c n Hg Hroom.
  - change (Z.of_nat 0) with 0. rewrite Z.add_0_r, update_same. reflexivity.
  - change (S m + n)%nat with (S (m + n)).
    change (repeat (_last_timestamp g) (S m) ++ c)
      with (_last_timestamp g :: (repeat (_last_timestamp g) m ++ c)).
    rewrite calls_step, (generate_id_next dc wk) by (assumption || lia).
    set (g' := update g (_sequence_number g + 1) (_last_timestamp g)).
    assert (Hg' : configured dc wk g')
      by (apply configured_update; [assumption | destruct Hg; lia]).
    specialize (IH g' c n Hg').
    change (_last_timestamp g') with (_last_timestamp g) in IH.
    change (_sequence_number g') with (_sequence_number g + 1) in IH.
    rewrite IH by lia. unfold g'. rewrite !update_update.
    change (seq 1 (S m)) with (1%nat :: seq 2 m).
    rewrite <- (seq_shift m 1), map_cons, map_map, <- app_comm_cons.
    replace (_sequence_number g + Z.of_nat (S m))
      with (_sequence_number g + 1 + Z.of_nat m) by lia.
    f_equal. f_equal. apply map_ext. intros i.
    replace (_sequence_number g + Z.of_nat (S i))
      with (_sequence_number g + 1 + Z.of_nat i) by lia.
    reflexivity.
Qed.

(** A new generator asked 4097 times while the clock stands at [T]: the
    first 4096 calls return the sequence numbers 0 to 4095 at [T]; the
    4097th reads [T] as long as the clock shows it and returns sequence 0
    at the first later reading [T']. *)
Lemma frozen_millisecond dc wk g T k T' rest :
  __init__ dc wk = inr g → 0 <= T → T < T' →
  calls 4097 {| self := g; clock := repeat T (4097 + k) ++ T' :: rest |}
  = map (fun i : nat => Issued (id_of (update g (Z.of_nat i) T)))
        (seq 0 4096)
    ++ [Issued (id_of (update g 0 T'))].
Proof.
  intros Hinit HT HT'.
  pose proof (init_configured _ _ _ Hinit) as Hg.
  assert (Hlast : _last_timestamp g = -1)
    by (apply init_inv in Hinit as [_ ->]; reflexivity).
  change (4097 + k)%nat with (1 + (4095 + (1 + k)))%nat.
  rewrite !repeat_app, <- !app_assoc.
  change (repeat T 1) with [T]. cbn [app].
  change 4097%nat with (S (4095 + 1)).
  rewrite calls_step, generate_id_later by lia.
  set (g1 := update g 0 T).
  assert (Hg1 : configured dc wk g1) by (apply configured_update; [assumption | lia]).
  pose proof (calls_same_millisecond dc wk 4095 g1
                (T :: repeat T k ++ T' :: rest) 1 Hg1) as Hrun.
  change (_last_timestamp g1) with T in Hrun.
  change (_sequence_number g1) with 0 in Hrun.
  rewrite Hrun by (vm_compute; discriminate). clear Hrun.
  set (g2 := update g1 (0 + Z.of_nat 4095) T).
  assert (Hg2 : configured dc wk g2)
    by (apply configured_update; [assumption | vm_compute; split; discriminate]).
  change (calls 1 ?w) with
    (match generate_id w with
     | Return id w' => Issued id :: calls 0 w'
     | Raise e w' => Refused e :: calls 0 w'
     | Blocked => []
     end).
  pose proof (generate_id_spin dc wk g2 Hg2 (repeat T k) T' rest) as Hspin.
  change (_last_timestamp g2) with T in Hspin.
  assert (Hfrozen : Forall (fun x => x <= T) (repeat T k)).
  { clear. induction k as [| k IH]; simpl; constructor; (lia || exact IH). }
  rewrite Hspin; [| vm_compute; reflexivity | exact Hfrozen | exact HT'].
  change (seq 0 4096) with (0%nat :: seq 1 4095).
  rewrite map_cons, <- app_comm_cons.
  reflexivity.
Qed.

(** Every sequence number is reached: a new generator that has been
    asked [s + 1] times within the millisecond [T]. *)
Lemma reachable_sequence dc wk g T (s : nat) :
  __init__ dc wk = inr g → 0 <= T → (s <= 4095)%nat →
  ∀ c, reachable dc wk {| self := update g (Z.of_nat s) T; clock := c |}.
Proof.
  intros Hinit HT. 
  assert (Hlast : _last_timestamp g = -1)
    by (apply init_inv in Hinit as [_ ->]; reflexivity).
  induction s as [| s IH]; intros Hs c.
  - apply (reach_return dc wk {| self := g; clock := T :: c |}
             (id_of (update g 0 T))).
    + apply reach_init, Hinit.
    + apply generate_id_later. lia.
  - set (g' := update g (Z.of_nat s) T).
    assert (Hreach : reachable dc wk {| self := g'; clock := T :: c |})
      by (apply IH; lia).
    pose proof (reachable_configured _ _ _ Hreach) as Hg'.
    pose proof (generate_id_next dc wk g' Hg' c) as Hnext.
    change (_last_timestamp g') with T in Hnext.
    change (_sequence_number g') with (Z.of_nat s) in Hnext.
    replace (Z.of_nat s + 1) with (Z.of_nat (S s)) in Hnext by lia.
    eapply reach_return; [exact Hreach |]. apply Hnext. lia.
Qed.

(** * The claims *)

(** C1. All the identifiers one instance returns are pairwise distinct:
    in a run of any number of calls of [generate_id] on a newly built
    instance, over any clock whatsoever (readings that make calls fail
    included), no identifier is returned twice.  Calls from several
    threads are such a run, the lock making each call atomic. *)
Theorem generate_id_unique dc wk g c n :
  __init__ dc wk = inr g →
  NoDup (issued (calls n {| self := g; clock := c |})).
Proof.
  intros Hg. apply sorted_lt_NoDup, (calls_sorted dc wk).
  apply init_configured, Hg.
Qed.

Lemma generate_id_unique_witness :
  ∃ g, __init__ 1 1 = inr g ∧
       NoDup (issued (calls 4
         {| self := g;
            clock := [1700000000000; 1700000000000;
                      1699999999999; 1700000000000] |})).
Proof.
  eexists. split; [reflexivity |].
  apply (generate_id_unique 1 1). reflexivity.
Defined.

(** C2. Strict monotonicity: when two calls on the same instance both
    return and the first returned before the second started, the first
    identifier is strictly less than the second.  It holds in every run:
    a call that reads a clock gone backwards does not return, so no
    assumption on the clock is needed. *)
Theorem generate_id_monotonic dc wk g c n i j a b :
  __init__ dc wk = inr g →
  (i < j)%nat →
  calls n {| self := g; clock := c |} !! i = Some (Issued a) →
  calls n {| self := g; clock := c |} !! j = Some (Issued b) →
  a < b.
Proof.
  intros Hg. apply (calls_increasing dc wk). apply init_configured, Hg.
Qed.

Lemma generate_id_monotonic_witness :
  1724551110456381440 < 1724551110460575744.
Proof.
  apply (generate_id_monotonic 1 1 default_generator
           [1700000000000; 1700000000000; 1700000000001] 3 0 2);
    [reflexivity | lia | reflexivity | reflexivity].
Defined.

(** C3. [generate_id] raises exactly when the reading it takes is
    strictly below the last timestamp seen, and then it raises the
    clock-regression [ValueError]; the object is left as it was, sequence
    number and last timestamp included, and the next call, on a reading
    past the last timestamp, returns. *)
Theorem generate_id_clock_regression g c :
  ((∃ e w', generate_id {| self := g; clock := c |} = Raise e w')
   ↔ (∃ t c', c = t :: c' ∧ t < _last_timestamp g)) ∧
  (∀ e w', generate_id {| self := g; clock := c |} = Raise e w' →
     e = ValueError ClockMovedBackwards ∧
     self w' = g ∧
     ∀ t2 c2, clock w' = t2 :: c2 → _last_timestamp g < t2 →
       ∃ id w2, generate_id w' = Return id w2 ∧
                _last_timestamp (self w2) = t2 ∧
                _sequence_number (self w2) = 0).
Proof.
  split; [split |].
  - intros [e [w' Hraise]].
    destruct (generate_id_Raise _ _ _ _ Hraise) as [t [Hc [Hlt _]]].
    exists t, (clock w'). split; assumption.
  - intros [t [c' [-> Hlt]]]. eexists _, _.
    apply generate_id_backwards, Hlt.
  - intros e w' Hraise.
    destruct (generate_id_Raise _ _ _ _ Hraise) as [t [Hc [Hlt [Hself He]]]].
    split; [exact He | split; [exact Hself |]].
    intros t2 c2 Hclock Hadv. destruct w' as [g' c'']. simpl in *. subst.
    eexists _, _. split; [apply generate_id_later, Hadv | split; reflexivity].
Qed.

Lemma generate_id_clock_regression_witness :
  ∃ g, __init__ 1 1 = inr g ∧
    let w := {| self := update g 0 1700000000005;
                clock := [1700000000004; 1700000000006] |} in
    ∃ e w', generate_id w = Raise e w' ∧
            self w' = self w ∧
            ∃ id w2, generate_id w' = Return id w2.
Proof.
  eexists. split; [reflexivity |]. simpl.
  eexists _, _. split; [reflexivity |].
  destruct (generate_id_clock_regression
              (update default_generator 0 1700000000005)
              [1700000000004; 1700000000006]) as [_ Hafter].
  destruct (Hafter _ _ eq_refl) as [_ [Hself Hnext]].
  split; [exact Hself |].
  destruct (Hnext 1700000000006 [] eq_refl) as [id [w2 [Hret _]]];
    [simpl; lia |].
  exists id, w2. exact Hret.
Defined.

(** C5. Every identifier [generate_id] returns is
    [((effective_time - EPOCH) << 22) | (datacenter_id << 17) |
     (worker_id << 12) | sequence]: the effective time is the last reading
    the call took from the clock, which it has stored as the last
    timestamp, and the sequence is the counter as the call leaves it. *)
Theorem generate_id_layout dc wk w id w' :
  reachable dc wk w →
  generate_id w = Return id w' →
  let effective_time := _last_timestamp (self w') in
  let sequence := _sequence_number (self w') in
  id = Z.lor (Z.lor (Z.lor
         (Z.shiftl (effective_time - EPOCH_TIMESTAMP) 22)
         (Z.shiftl dc 17))
         (Z.shiftl wk 12))
         sequence ∧
  EPOCH_TIMESTAMP = 1288834974657 ∧
  ∃ pre, clock w = pre ++ effective_time :: clock w'.
Proof.
  intros Hw Hret. apply reachable_configured in Hw.
  destruct (generate_id_configured _ _ _ _ _ Hw Hret) as [Hw' [Hid _]].
  destruct w as [g c].
  destruct (generate_id_Return _ _ _ _ Hret)
    as [s [t [pre [Hc [_ [Hself _]]]]]].
  simpl. split; [| split; [reflexivity |]].
  - rewrite Hid. unfold id_of. destruct Hw'.
    rewrite cfg_timestamp_shift0, cfg_datacenter_shift0, cfg_worker_shift0,
      cfg_datacenter0, cfg_worker0. reflexivity.
  - exists pre. rewrite Hself. simpl. exact Hc.
Qed.

Lemma generate_id_layout_witness :
  ∃ w', generate_id {| self := default_generator;
                       clock := [1700000000000] |}
        = Return 1724551110456381440 w' ∧
        1724551110456381440
        = Z.lor (Z.lor (Z.lor
            (Z.shiftl (1700000000000 - EPOCH_TIMESTAMP) 22)
            (Z.shiftl 1 17)) (Z.shiftl 1 12)) 0.
Proof.
  eexists. split; [reflexivity |].
  refine (proj1 (generate_id_layout 1 1
           {| self := default_generator; clock := [1700000000000] |}
           _ _ _ eq_refl)).
  apply reach_init. reflexivity.
Defined.

(** C6. The fields read back from a returned identifier: bits 12..16 are
    the worker id, bits 17..21 the datacenter id, bits 0..11 a number in
    0..4095 (the sequence counter), and the bits from 22 up, plus the
    epoch, the effective clock reading of the call. *)
Theorem generate_id_roundtrip dc wk w id w' :
  reachable dc wk w →
  generate_id w = Return id w' →
  Z.land (Z.shiftr id 12) 31 = wk ∧
  Z.land (Z.shiftr id 17) 31 = dc ∧
  0 <= Z.land id 4095 <= 4095 ∧
  Z.land id 4095 = _sequence_number (self w') ∧
  Z.shiftr id 22 + EPOCH_TIMESTAMP = _last_timestamp (self w') ∧
  ∃ pre, clock w = pre ++ _last_timestamp (self w') :: clock w'.
Proof.
  intros Hw Hret. apply reachable_configured in Hw.
  destruct (generate_id_configured _ _ _ _ _ Hw Hret) as [Hw' [Hid _]].
  assert (Hclock : ∃ pre, clock w = pre ++ _last_timestamp (self w') :: clock w').
  { destruct w as [g c].
    destruct (generate_id_Return _ _ _ _ Hret)
      as [s [t [pre [Hc [_ [Hself _]]]]]].
    exists pre. rewrite Hself. exact Hc. }
  rewrite (id_of_sum _ _ _ Hw') in Hid. destruct Hw'.
  change 31 with (Z.ones 5). change 4095 with (Z.ones 12).
  rewrite !Z.land_ones, !Z.shiftr_div_pow2 by lia.
  change (2 ^ 5) with 32. change (2 ^ 12) with 4096.
  change (2 ^ 17) with 131072. change (2 ^ 22) with 4194304.
  change (Z.ones 12) with 4095.
  repeat split; try exact Hclock; subst id; Z.div_mod_to_equations; lia.
Qed.

Lemma generate_id_roundtrip_witness :
  Z.land (Z.shiftr 1724551110456381440 12) 31 = 1 ∧
  Z.land (Z.shiftr 1724551110456381440 17) 31 = 1 ∧
  Z.shiftr 1724551110456381440 22 + EPOCH_TIMESTAMP = 1700000000000.
Proof.
  destruct (generate_id_roundtrip 1 1
              {| self := default_generator; clock := [1700000000000] |}
              1724551110456381440
              {| self := update default_generator 0 1700000000000;
                 clock := [] |})
    as [Hwk [Hdc [_ [_ [Ht _]]]]];
    [apply reach_init; reflexivity | reflexivity |].
  split; [exact Hwk | split; [exact Hdc | exact Ht]].
Defined.

(** C7. [SnowflakeIdGenerator(datacenter_id, worker_id)] raises, a
    [ValueError], exactly when one of the two ids is outside 0..31: it
    does for a datacenter id of 32 and for a worker id of -1, and does not
    for the ids 0 and 31; the object it builds has the sequence counter 0
    and the last timestamp -1, the value no reading has been stored over. *)
Theorem init_range dc wk :
  ((∃ m, __init__ dc wk = inl (ValueError m))
   ↔ ¬ (0 <= dc <= 31 ∧ 0 <= wk <= 31)) ∧
  ((∃ e, __init__ dc wk = inl e) ↔ ¬ (0 <= dc <= 31 ∧ 0 <= wk <= 31)) ∧
  __init__ 32 wk = inl (ValueError (DatacenterIdOutOfRange 31)) ∧
  (∃ m, __init__ dc (-1) = inl (ValueError m)) ∧
  (∃ g, __init__ 0 31 = inr g) ∧
  (∀ g, __init__ dc wk = inr g →
     _sequence_number g = 0 ∧ _last_timestamp g = -1 ∧
     _datacenter_id g = dc ∧ _worker_id g = wk).
Proof.
  assert (Hcases : (0 <= dc <= 31 ∧ 0 <= wk <= 31 ∧ ∃ g, __init__ dc wk = inr g)
                   ∨ (¬ (0 <= dc <= 31 ∧ 0 <= wk <= 31) ∧
                      ∃ m, __init__ dc wk = inl (ValueError m))).
  { unfold __init__, _validate_ids.
    change (_calculate_max_value DATACENTER_ID_BITS) with 31.
    change (_calculate_max_value WORKER_ID_BITS) with 31.
    destruct (Z.leb_spec 0 dc), (Z.leb_spec dc 31),
             (Z.leb_spec 0 wk), (Z.leb_spec wk 31); simpl;
      first [ left; repeat split; try lia; eexists; reflexivity
            | right; split; [lia | eexists; reflexivity] ]. }
  repeat split.
  - intros [m Hm] Hok. destruct Hcases as [[_ [_ [g Hg]]] | [Hbad _]];
      [congruence | contradiction].
  - intros Hbad. destruct Hcases as [[? [? _]] | [_ Hm]]; [tauto | exact Hm].
  - intros [e He] Hok. destruct Hcases as [[_ [_ [g Hg]]] | [Hbad _]];
      [congruence | contradiction].
  - intros Hbad. destruct Hcases as [[? [? _]] | [_ [m Hm]]];
      [tauto | eexists; exact Hm].
  - unfold __init__, _validate_ids.
    change (_calculate_max_value DATACENTER_ID_BITS) with 31.
    destruct (Z.leb_spec 0 dc), (Z.leb_spec dc 31); simpl;
      eexists; reflexivity.
  - eexists. reflexivity.
  - apply init_inv in H as [_ ->]. reflexivity.
  - apply init_inv in H as [_ ->]. reflexivity.
  - apply init_inv in H as [_ ->]. reflexivity.
  - apply init_inv in H as [_ ->]. reflexivity.
Qed.

(** C8, as the code has it.  [generate_id] takes any reading that is not
    below the last timestamp, and Python integers do not wrap: the
    timestamp field of the identifier it returns lies in 0..2^41-1 exactly
    when the effective reading [t] satisfies [EPOCH <= t < EPOCH + 2^41],
    and then the identifier lies in [0, 2^63), hence in [0, 2^64); for an
    effective reading below the epoch the identifier is negative. *)
Theorem generate_id_range dc wk w id w' :
  reachable dc wk w →
  generate_id w = Return id w' →
  let t := _last_timestamp (self w') in
  (0 <= Z.shiftr id 22 < 2 ^ 41
   ↔ EPOCH_TIMESTAMP <= t < EPOCH_TIMESTAMP + 2 ^ 41) ∧
  (EPOCH_TIMESTAMP <= t < EPOCH_TIMESTAMP + 2 ^ 41 →
   0 <= id < 2 ^ 63 ∧ 0 <= id < 2 ^ 64) ∧
  (t < EPOCH_TIMESTAMP → id < 0).
Proof.
  intros Hw Hret. apply reachable_configured in Hw.
  destruct (generate_id_configured _ _ _ _ _ Hw Hret) as [Hw' [Hid _]].
  rewrite (id_of_sum _ _ _ Hw') in Hid. destruct Hw'.
  simpl. rewrite Z.shiftr_div_pow2 by lia.
  change (2 ^ 22) with 4194304. change (2 ^ 41) with 2199023255552.
  change (2 ^ 63) with 9223372036854775808.
  change (2 ^ 64) with 18446744073709551616.
  unfold EPOCH_TIMESTAMP in *.
  repeat split; intros; subst id; Z.div_mod_to_equations; lia.
Qed.

Lemma generate_id_range_witness :
  0 <= 1724551110456381440 < 2 ^ 64.
Proof.
  destruct (generate_id_range 1 1
              {| self := default_generator; clock := [1700000000000] |}
              1724551110456381440
              {| self := update default_generator 0 1700000000000;
                 clock := [] |})
    as [_ [Hin _]];
    [apply reach_init; reflexivity | reflexivity |].
  apply Hin. simpl. unfold EPOCH_TIMESTAMP. lia.
Defined.

(** C8 as stated fails: a new generator with the ids 1 and 1 accepts the
    clock reading 1000 (one second after 1970-01-01T00:00:00Z) and
    returns a negative identifier; it accepts the reading
    [EPOCH + 2 ^ 42] and returns an identifier of 2^64 or more. *)
Lemma generate_id_range_counterexample :
  ¬ (∀ dc wk w id w',
       reachable dc wk w → generate_id w = Return id w' →
       0 <= id < 2 ^ 64) ∧
  (∃ w', generate_id {| self := default_generator; clock := [1000] |}
         = Return (-5405765685349314560) w') ∧
  (∃ id w', generate_id {| self := default_generator;
                           clock := [EPOCH_TIMESTAMP + 2 ^ 42] |}
            = Return id w' ∧ 2 ^ 64 <= id).
Proof.
  split; [| split].
  - intros Hall.
    specialize (Hall 1 1 {| self := default_generator; clock := [1000] |}
                  (-5405765685349314560)
                  {| self := update default_generator 0 1000; clock := [] |}).
    assert (Hneg : 0 <= -5405765685349314560 < 2 ^ 64)
      by (apply Hall; [apply reach_init |]; reflexivity).
    lia.
  - eexists. reflexivity.
  - eexists _, _. split; [reflexivity |]. vm_compute. discriminate.
Qed.

(** C4. A call that reads the last timestamp again sets the sequence
    counter to its successor modulo 4096.  When that is not 0 the call
    returns on that reading.  When it is 0 (the counter stood at 4095) the
    call reads the clock on, passes over every reading up to the last
    timestamp, takes the first reading above it as the effective
    timestamp and returns the identifier with sequence 0, above the one
    the object stood at; while no such reading comes, it does not return.
    So a new generator asked 4097 times within the millisecond [T] gives
    the sequence numbers 0 to 4095 at [T] and then sequence 0 at the next
    millisecond read, and no run returns an identifier twice. *)
Theorem generate_id_rollover dc wk :
  (∀ w t c,
     reachable dc wk w → clock w = t :: c → t = _last_timestamp (self w) →
     let g := self w in
     let s := (_sequence_number g + 1) mod 4096 in
     (s ≠ 0 →
      generate_id w
      = Return (id_of (update g s t)) {| self := update g s t; clock := c |}) ∧
     (s = 0 →
      _sequence_number g = 4095 ∧
      (∀ pre t' post,
         c = pre ++ t' :: post → Forall (fun x => x <= t) pre → t < t' →
         generate_id w
         = Return (id_of (update g 0 t'))
             {| self := update g 0 t'; clock := post |} ∧
         id_of g < id_of (update g 0 t')) ∧
      (Forall (fun x => x <= t) c → generate_id w = Blocked))) ∧
  (∀ g T k T' rest,
     __init__ dc wk = inr g → 0 <= T → T < T' →
     calls 4097 {| self := g; clock := repeat T (4097 + k) ++ T' :: rest |}
     = map (fun i : nat => Issued (id_of (update g (Z.of_nat i) T)))
           (seq 0 4096)
       ++ [Issued (id_of (update g 0 T'))]) ∧
  (∀ g c n,
     __init__ dc wk = inr g →
     NoDup (issued (calls n {| self := g; clock := c |}))).
Proof.
  split; [| split].
  - intros [g c0] t c Hw Hc Ht. simpl in Hc, Ht. subst c0 t.
    apply reachable_configured in Hw. simpl in Hw. simpl.
    pose proof (land_next_sequence dc wk g Hw) as Hland.
    pose proof (cfg_sequence_range _ _ _ Hw) as Hrange.
    split.
    + intros Hs. rewrite <- Hland. apply generate_id_same; [reflexivity |].
      rewrite Hland. exact Hs.
    + intros Hs.
      assert (Hfull : _sequence_number g = 4095).
      { destruct (Z.eq_dec (_sequence_number g) 4095) as [Hfull | Hroom];
          [exact Hfull |].
        rewrite Z.mod_small in Hs by lia. lia. }
      split; [exact Hfull | split].
      * intros pre t' post -> Hpre Ht'. split.
        -- apply (generate_id_spin dc wk); assumption.
        -- apply (advances_lt dc wk); [exact Hw |].
           right. split; [exact Ht' | reflexivity].
      * intros Hc. apply (generate_id_starved dc wk); assumption.
  - intros g T k T' rest. apply frozen_millisecond.
  - intros g c n Hg. apply sorted_lt_NoDup, (calls_sorted dc wk).
    apply init_configured, Hg.
Qed.

Lemma generate_id_rollover_witness :
  let g := update default_generator 4095 1700000000000 in
  generate_id {| self := g;
                 clock := [1700000000000; 1700000000000; 1699999999999;
                           1700000000001; 1700000000002] |}
  = Return (id_of (update g 0 1700000000001))
      {| self := update g 0 1700000000001; clock := [1700000000002] |}.
Proof.
  intros g.
  destruct (proj1 (generate_id_rollover 1 1)
              {| self := g;
                 clock := [1700000000000; 1700000000000; 1699999999999;
                           1700000000001; 1700000000002] |}
              1700000000000 _
              (reachable_sequence 1 1 default_generator 1700000000000 4095
                 eq_refl ltac:(lia) ltac:(lia) _)
              eq_refl eq_refl) as [_ Hwrap].
  destruct (Hwrap eq_refl) as [_ [Hspin _]].
  apply (Hspin [1700000000000; 1699999999999] 1700000000001
               [1700000000002] eq_refl).
  - repeat constructor; lia.
  - lia.
Defined.

(** C9, as the code has it.  While [_global_generator] is [None], a call
    of [get_global_id_generator] with ids in range builds the instance, at
    an address no object had, stores it and returns it; a call with an id
    out of range raises the [ValueError] of the constructor and leaves
    [_global_generator] at [None], so that the next call builds the
    instance from its own arguments.  Once a call has returned, every
    later call returns the same instance whatever its arguments and builds
    nothing: it leaves the process as it was. *)
Theorem get_global_id_generator_once dc wk p :
  (∀ l, _global_generator p = Some l →
     get_global_id_generator dc wk p = Return (Some l) p) ∧
  (∀ g, _global_generator p = None → __init__ dc wk = inr g →
     let l := fresh (dom (heap p)) in
     heap p !! l = None ∧
     get_global_id_generator dc wk p
     = Return (Some l) {| heap := <[l := g]> (heap p);
                          _global_generator := Some l;
                          wall_clock := wall_clock p |}) ∧
  (∀ e, _global_generator p = None → __init__ dc wk = inl e →
     get_global_id_generator dc wk p = Raise e p) ∧
  (∀ r p', get_global_id_generator dc wk p = Return r p' →
     (∃ l, r = Some l ∧ _global_generator p' = Some l) ∧
     ∀ dc2 wk2, get_global_id_generator dc2 wk2 p' = Return r p').
Proof.
  assert (Hhit : ∀ dc0 wk0 q l, _global_generator q = Some l →
            get_global_id_generator dc0 wk0 q = Return (Some l) q).
  { intros dc0 wk0 q l Hl.
    unfold get_global_id_generator, mbind, M_bind, get, mret, M_ret; simpl.
    rewrite Hl. simpl. rewrite Hl. reflexivity. }
  assert (Hbuild : ∀ g, _global_generator p = None → __init__ dc wk = inr g →
            get_global_id_generator dc wk p
            = Return (Some (fresh (dom (heap p))))
                {| heap := <[fresh (dom (heap p)) := g]> (heap p);
                   _global_generator := Some (fresh (dom (heap p)));
                   wall_clock := wall_clock p |}).
  { intros g Hnone Hg.
    unfold get_global_id_generator, new_SnowflakeIdGenerator, mbind, M_bind,
      get, mret, M_ret; simpl.
    repeat (simpl; first [rewrite Hnone | rewrite Hg]). reflexivity. }
  assert (Hfail : ∀ e, _global_generator p = None → __init__ dc wk = inl e →
            get_global_id_generator dc wk p = Raise e p).
  { intros e Hnone He.
    unfold get_global_id_generator, new_SnowflakeIdGenerator, mbind, M_bind,
      get, mret, M_ret; simpl.
    repeat (simpl; first [rewrite Hnone | rewrite He]). reflexivity. }
  split; [apply Hhit | split; [| split; [exact Hfail |]]].
  - intros g Hnone Hg. split; [| apply Hbuild; assumption].
    apply not_elem_of_dom, is_fresh.
  - intros r p' Hret.
    assert (Hr : ∃ l, r = Some l ∧ _global_generator p' = Some l).
    { destruct (_global_generator p) as [l |] eqn:Hglobal.
      - rewrite (Hhit _ _ _ _ Hglobal) in Hret. injection Hret as <- <-.
        exists l. split; [reflexivity | exact Hglobal].
      - destruct (__init__ dc wk) as [e | g] eqn:Hinit.
        + rewrite (Hfail _ eq_refl eq_refl) in Hret. discriminate.
        + rewrite (Hbuild _ eq_refl eq_refl) in Hret. injection Hret as <- <-.
          eexists. split; reflexivity. }
    split; [exact Hr |].
    destruct Hr as [l [-> Hl]]. intros dc2 wk2. apply Hhit, Hl.
Qed.

(** C9 as stated fails: in a process without instance, the first call,
    with the datacenter id 32, raises and builds nothing; the call after
    it, with the ids 2 and 3, builds the instance with these ids. *)
Lemma get_global_id_generator_counterexample :
  let p0 := {| heap := ∅; _global_generator := None; wall_clock := [] |} in
  ¬ (∀ dc wk p, _global_generator p = None →
       ∃ l p', get_global_id_generator dc wk p = Return (Some l) p') ∧
  get_global_id_generator 32 1 p0
  = Raise (ValueError (DatacenterIdOutOfRange 31)) p0 ∧
  ∃ l p1 g,
    get_global_id_generator 2 3 p0 = Return (Some l) p1 ∧
    heap p1 !! l = Some g ∧ _datacenter_id g = 2 ∧ _worker_id g = 3.
Proof.
  split; [| split; [reflexivity |]].
  - intros Hall.
    destruct (Hall 32 1
                {| heap := ∅; _global_generator := None; wall_clock := [] |}
                eq_refl) as [l [p' Hret]].
    discriminate Hret.
  - eexists _, _, _. split; [reflexivity |].
    split; [apply lookup_insert_eq | split; reflexivity].
Qed.

(** C10. [create_unique_id_with_prefix] builds a generator of its own on
    every call, at an address no object had, so it is not the instance
    [_global_generator] holds, which it neither reads nor assigns; it
    returns the prefix followed by the decimal digits of the one
    identifier that new generator returns.  Two calls that read the same
    millisecond return the same string: what holds for the identifiers of
    one instance does not hold across calls of this function. *)
Theorem create_unique_id_with_prefix_fresh prefix dc wk p g :
  __init__ dc wk = inr g →
  let l := fresh (dom (heap p)) in
  (∀ l0, is_Some (heap p !! l0) → l0 ≠ l) ∧
  (∀ id w',
     generate_id {| self := g; clock := wall_clock p |} = Return id w' →
     create_unique_id_with_prefix prefix dc wk p
     = Return (prefix +:+ str id)
         {| heap := <[l := self w']> (heap p);
            _global_generator := _global_generator p;
            wall_clock := clock w' |}) ∧
  (∀ t c, wall_clock p = t :: t :: c → 0 <= t →
     ∃ p1 p2,
       create_unique_id_with_prefix prefix dc wk p
       = Return (prefix +:+ str (id_of (update g 0 t))) p1 ∧
       create_unique_id_with_prefix prefix dc wk p1
       = Return (prefix +:+ str (id_of (update g 0 t))) p2).
Proof.
  intros Hinit l.
  assert (Hlast : _last_timestamp g = -1)
    by (apply init_inv in Hinit as [_ ->]; reflexivity).
  assert (Hrun : ∀ q id w',
            generate_id {| self := g; clock := wall_clock q |} = Return id w' →
            create_unique_id_with_prefix prefix dc wk q
            = Return (prefix +:+ str id)
                {| heap := <[fresh (dom (heap q)) := self w']> (heap q);
                   _global_generator := _global_generator q;
                   wall_clock := clock w' |}).
  { intros q id w' Hgen.
    unfold create_unique_id_with_prefix, new_SnowflakeIdGenerator, call,
      mbind, M_bind, mret, M_ret.
    rewrite Hinit. simpl. rewrite lookup_insert_eq, Hgen, insert_insert_eq.
    reflexivity. }
  split; [| split].
  - intros l0 [g0 Hl0] Heq. unfold l in Heq. rewrite Heq in Hl0.
    pose proof (is_fresh (dom (heap p))) as Hfresh.
    apply not_elem_of_dom in Hfresh. congruence.
  - intros id w'. apply Hrun.
  - intros t c Hclock Ht. eexists _, _. split.
    + apply Hrun. rewrite Hclock. apply generate_id_later. lia.
    + apply Hrun. simpl. apply generate_id_later. lia.
Qed.

Lemma create_unique_id_with_prefix_fresh_witness :
  let p := {| heap := ∅; _global_generator := None;
              wall_clock := [1700000000000; 1700000000000] |} in
  ∃ p1 p2,
    create_unique_id_with_prefix "USER_" 1 1 p
    = Return "USER_1724551110456381440" p1 ∧
    create_unique_id_with_prefix "USER_" 1 1 p1
    = Return "USER_1724551110456381440" p2.
Proof.
  intros p.
  destruct (create_unique_id_with_prefix_fresh "USER_" 1 1 p
              default_generator eq_refl) as [_ [_ Hsame]].
  exact (Hsame 1700000000000 [] eq_refl ltac:(lia)).
Defined.

(** * Further properties of the generator *)

(** ** Shared lemmas *)

Lemma reachable_last_timestamp dc wk w :
  reachable dc wk w → -1 <= _last_timestamp (self w).
Proof.
  induction 1 as [g c Hg | w id w' Hw IH Hret | w e w' _ IH Hraise].
  - apply init_inv in Hg as [_ ->]. simpl. lia.
  - destruct w as [g c].
    destruct (generate_id_Return _ _ _ _ Hret)
      as [s [t [pre [_ [_ [Hself [_ Hadv]]]]]]].
    rewrite Hself. simpl in *. destruct Hadv as [[-> _] | [Hlt _]]; lia.
  - destruct w as [g c].
    destruct (generate_id_Raise _ _ _ _ Hraise) as [_ [_ [_ [-> _]]]].
    exact IH.
Qed.

(** What a returning call does to a configured object, in one statement. *)
Lemma generate_id_transition dc wk g c id w' :
  configured dc wk g →
  generate_id {| self := g; clock := c |} = Return id w' →
  configured dc wk (self w') ∧
  id = id_of (self w') ∧
  ((_last_timestamp (self w') = _last_timestamp g ∧
    _sequence_number (self w') = _sequence_number g + 1) ∨
   (_last_timestamp g < _last_timestamp (self w') ∧
    _sequence_number (self w') = 0)).
Proof.
  intros Hg Hret.
  destruct (generate_id_Return _ _ _ _ Hret)
    as [s [t [pre [_ [_ [Hself [Hid Hadv]]]]]]].
  destruct (advances_configured _ _ _ _ _ Hg Hadv) as [Hg' Hcase].
  rewrite Hself. split; [exact Hg' | split; [exact Hid | exact Hcase]].
Qed.

(** ** [_calculate_max_value] *)

(** X1. For a bit count that is not negative, [_calculate_max_value] is
    [2 ^ bits - 1], the largest number of that many bits, and [&] with it
    keeps the low [bits] bits: it is the remainder modulo [2 ^ bits]. *)
Theorem calculate_max_value_spec bits :
  0 <= bits →
  _calculate_max_value bits = 2 ^ bits - 1 ∧
  ∀ x, Z.land x (_calculate_max_value bits) = x mod 2 ^ bits.
Proof.
  intros Hbits.
  assert (Hmax : _calculate_max_value bits = Z.ones bits).
  { unfold _calculate_max_value.
    rewrite Z.lxor_m1_l, Z.shiftl_mul_pow2, Z.ones_equiv by exact Hbits.
    unfold Z.lnot. lia. }
  split.
  - rewrite Hmax, Z.ones_equiv. lia.
  - intros x. rewrite Hmax. apply Z.land_ones, Hbits.
Qed.

Lemma calculate_max_value_spec_witness :
  _calculate_max_value 12 = 2 ^ 12 - 1 ∧
  Z.land 4096 (_calculate_max_value 12) = 4096 mod 2 ^ 12.
Proof.
  destruct (calculate_max_value_spec 12 ltac:(lia)) as [Hmax Hmask].
  split; [exact Hmax | apply Hmask].
Defined.

(** ** What a call keeps *)

(** X2. A call of [generate_id], whether it returns or raises, assigns
    nothing but the sequence number and the last timestamp: the two ids,
    the three maxima and the three shifts of the object are as before,
    whatever the object and the clock. *)
Theorem generate_id_keeps_configuration g c w' :
  (∃ id, generate_id {| self := g; clock := c |} = Return id w') ∨
  (∃ e, generate_id {| self := g; clock := c |} = Raise e w') →
  _datacenter_id (self w') = _datacenter_id g ∧
  _worker_id (self w') = _worker_id g ∧
  _max_datacenter_id (self w') = _max_datacenter_id g ∧
  _max_worker_id (self w') = _max_worker_id g ∧
  _max_sequence (self w') = _max_sequence g ∧
  _worker_id_shift (self w') = _worker_id_shift g ∧
  _datacenter_id_shift (self w') = _datacenter_id_shift g ∧
  _timestamp_shift (self w') = _timestamp_shift g.
Proof.
  intros [[id Hret] | [e Hraise]].
  - destruct (generate_id_Return _ _ _ _ Hret)
      as [s [t [pre [_ [_ [-> _]]]]]].
    repeat split.
  - destruct (generate_id_Raise _ _ _ _ Hraise) as [_ [_ [_ [-> _]]]].
    repeat split.
Qed.

Lemma generate_id_keeps_configuration_witness :
  _datacenter_id (update default_generator 0 1700000000000) = 1 ∧
  _worker_id (update default_generator 0 1700000000000) = 1.
Proof.
  destruct (generate_id_keeps_configuration default_generator
              [1700000000000]
              {| self := update default_generator 0 1700000000000;
                 clock := [] |})
    as [Hdc [Hwk _]].
  - left. eexists. reflexivity.
  - split; [exact Hdc | exact Hwk].
Defined.

(** X3. In every state of an instance built with ids in range, the
    sequence number is in 0..4095, the last timestamp is -1 or more, and
    the ids are the ones given to the constructor, each in 0..31. *)
Theorem reachable_invariant dc wk w :
  reachable dc wk w →
  0 <= _sequence_number (self w) <= 4095 ∧
  -1 <= _last_timestamp (self w) ∧
  _datacenter_id (self w) = dc ∧ _worker_id (self w) = wk ∧
  0 <= dc <= 31 ∧ 0 <= wk <= 31.
Proof.
  intros Hw. pose proof (reachable_last_timestamp _ _ _ Hw) as Hlast.
  apply reachable_configured in Hw. destruct Hw.
  repeat split; (assumption || lia).
Qed.

Lemma reachable_invariant_witness :
  0 <= _sequence_number (update default_generator 4095 1700000000000) <= 4095.
Proof.
  refine (proj1 (reachable_invariant 1 1
            {| self := update default_generator 4095 1700000000000;
               clock := [] |} _)).
  apply (reachable_sequence 1 1 default_generator 1700000000000 4095);
    [reflexivity | lia | lia].
Defined.

(** X4. A call that returns never moves the last timestamp back: either
    it keeps it and the sequence number goes up by one, or it moves it
    forward and the sequence number is 0 again.  A call that raises keeps
    both. *)
Theorem generate_id_step dc wk w :
  reachable dc wk w →
  (∀ id w', generate_id w = Return id w' →
     (_last_timestamp (self w') = _last_timestamp (self w) ∧
      _sequence_number (self w') = _sequence_number (self w) + 1) ∨
     (_last_timestamp (self w) < _last_timestamp (self w') ∧
      _sequence_number (self w') = 0)) ∧
  (∀ e w', generate_id w = Raise e w' →
     _last_timestamp (self w') = _last_timestamp (self w) ∧
     _sequence_number (self w') = _sequence_number (self w)).
Proof.
  intros Hw. apply reachable_configured in Hw. destruct w as [g c]. split.
  - intros id w' Hret.
    apply (generate_id_transition dc wk g c id w' Hw Hret).
  - intros e w' Hraise.
    destruct (generate_id_Raise _ _ _ _ Hraise) as [_ [_ [_ [-> _]]]].
    split; reflexivity.
Qed.

Lemma generate_id_step_witness :
  _sequence_number (update default_generator 0 1700000000000) = 0.
Proof.
  destruct (proj1 (generate_id_step 1 1
              {| self := default_generator; clock := [1700000000000] |}
              (reach_init 1 1 default_generator _ eq_refl))
              _ _ eq_refl) as [[Hlast _] | [_ Hseq]].
  - discriminate Hlast.
  - exact Hseq.
Defined.

(** ** Identifiers as numbers *)

(** X5. Two calls in a row on one instance that both return and use the
    same millisecond return consecutive integers: the second identifier
    is the first plus one. *)
Theorem generate_id_consecutive dc wk w a w1 b w2 :
  reachable dc wk w →
  generate_id w = Return a w1 →
  generate_id w1 = Return b w2 →
  _last_timestamp (self w2) = _last_timestamp (self w1) →
  b = a + 1.
Proof.
  intros Hw Ha Hb Hsame. apply reachable_configured in Hw.
  destruct w as [g c].
  destruct (generate_id_transition _ _ _ _ _ _ Hw Ha) as [Hw1 [-> _]].
  destruct w1 as [g1 c1].
  destruct (generate_id_transition _ _ _ _ _ _ Hw1 Hb) as [Hw2 [-> Hcase]].
  rewrite (id_of_sum _ _ _ Hw1), (id_of_sum _ _ _ Hw2).
  simpl in *. destruct Hcase as [[_ Hseq] | [Hlt _]]; lia.
Qed.

Lemma generate_id_consecutive_witness :
  1724551110456381441 = 1724551110456381440 + 1.
Proof.
  apply (generate_id_consecutive 1 1
           {| self := default_generator;
              clock := [1700000000000; 1700000000000] |}
           1724551110456381440
           {| self := update default_generator 0 1700000000000;
              clock := [1700000000000] |}
           1724551110456381441
           {| self := update default_generator 1 1700000000000;
              clock := [] |});
    [apply reach_init | ..]; reflexivity.
Defined.

(** X6. Identifiers sort by time, also across instances: of two
    identifiers returned by any two instances, whatever their ids, the
    one made at the earlier millisecond is the smaller. *)
Theorem generate_id_time_ordered dc1 wk1 w1 a w1' dc2 wk2 w2 b w2' :
  reachable dc1 wk1 w1 → generate_id w1 = Return a w1' →
  reachable dc2 wk2 w2 → generate_id w2 = Return b w2' →
  _last_timestamp (self w1') < _last_timestamp (self w2') →
  a < b.
Proof.
  intros Hw1 Ha Hw2 Hb Hlt.
  apply reachable_configured in Hw1, Hw2.
  destruct (generate_id_configured _ _ _ _ _ Hw1 Ha) as [Hw1' [-> _]].
  destruct (generate_id_configured _ _ _ _ _ Hw2 Hb) as [Hw2' [-> _]].
  rewrite (id_of_sum _ _ _ Hw1'), (id_of_sum _ _ _ Hw2').
  destruct Hw1', Hw2'. lia.
Qed.

Lemma generate_id_time_ordered_witness :
  1724551110460436480 < 1724551110460440576.
Proof.
  assert (H31 : ∃ g, __init__ 31 31 = inr g) by (eexists; reflexivity).
  destruct H31 as [g31 H31].
  assert (H00 : ∃ g, __init__ 0 0 = inr g) by (eexists; reflexivity).
  destruct H00 as [g00 H00].
  injection H31 as <-. injection H00 as <-.
  refine (generate_id_time_ordered 31 31
            {| self := _; clock := [1700000000000] |} _ _
            0 0
            {| self := _; clock := [1700000000001] |} _ _
            (reach_init 31 31 _ _ eq_refl) eq_refl
            (reach_init 0 0 _ _ eq_refl) eq_refl _).
  simpl. lia.
Defined.

(** X7. Two instances whose pairs of datacenter id and worker id differ
    never return the same identifier, whatever their clocks. *)
Theorem generate_id_disjoint dc1 wk1 w1 a w1' dc2 wk2 w2 b w2' :
  reachable dc1 wk1 w1 → generate_id w1 = Return a w1' →
  reachable dc2 wk2 w2 → generate_id w2 = Return b w2' →
  (dc1, wk1) ≠ (dc2, wk2) →
  a ≠ b.
Proof.
  intros Hw1 Ha Hw2 Hb Hne Heq. apply Hne.
  apply reachable_configured in Hw1, Hw2.
  destruct (generate_id_configured _ _ _ _ _ Hw1 Ha) as [Hw1' [-> _]].
  destruct (generate_id_configured _ _ _ _ _ Hw2 Hb) as [Hw2' [-> _]].
  rewrite (id_of_sum _ _ _ Hw1'), (id_of_sum _ _ _ Hw2') in Heq.
  destruct Hw1', Hw2'.
  assert (dc1 = dc2 ∧ wk1 = wk2) as [-> ->] by lia.
  reflexivity.
Qed.

Lemma generate_id_disjoint_witness :
  1724551110456381440 ≠ 1724551110456385536.
Proof.
  apply (generate_id_disjoint 1 1
           {| self := default_generator; clock := [1700000000000] |}
           1724551110456381440
           {| self := update default_generator 0 1700000000000;
              clock := [] |}
           1 2
           {| self := {| _datacenter_id := 1; _worker_id := 2;
                         _sequence_number := 0; _last_timestamp := -1;
                         _max_datacenter_id := 31; _max_worker_id := 31;
                         _max_sequence := 4095; _worker_id_shift := 12;
                         _datacenter_id_shift := 17;
                         _timestamp_shift := 22 |};
              clock := [1700000000000] |}
           1724551110456385536
           {| self := {| _datacenter_id := 1; _worker_id := 2;
                         _sequence_number := 0;
                         _last_timestamp := 1700000000000;
                         _max_datacenter_id := 31; _max_worker_id := 31;
                         _max_sequence := 4095; _worker_id_shift := 12;
                         _datacenter_id_shift := 17;
                         _timestamp_shift := 22 |};
              clock := [] |});
    [apply reach_init; reflexivity | reflexivity
    | apply reach_init; reflexivity | reflexivity | ].
  discriminate.
Defined.

(** ** The first call and the clock *)

(** X8. The first call on a new generator, by the reading it takes: below
    -1 it raises the clock [ValueError], although no reading was seen
    before; at -1, the initial value of the last timestamp, it takes the
    reading for a repeated millisecond and returns with sequence 1; at 0
    or above it returns with sequence 0.  It never waits, and it leaves
    the rest of the clock unread. *)
Theorem generate_id_first_call dc wk g t c :
  __init__ dc wk = inr g →
  (t < -1 →
   generate_id {| self := g; clock := t :: c |}
   = Raise (ValueError ClockMovedBackwards) {| self := g; clock := c |}) ∧
  (t = -1 →
   generate_id {| self := g; clock := t :: c |}
   = Return (id_of (update g 1 (-1)))
       {| self := update g 1 (-1); clock := c |}) ∧
  (0 <= t →
   generate_id {| self := g; clock := t :: c |}
   = Return (id_of (update g 0 t)) {| self := update g 0 t; clock := c |}).
Proof.
  intros Hinit. apply init_inv in Hinit as [_ ->].
  split; [| split].
  - intros Ht. apply generate_id_backwards. simpl. lia.
  - intros ->. reflexivity.
  - intros Ht. apply generate_id_later. simpl. lia.
Qed.

Lemma generate_id_first_call_witness :
  generate_id {| self := default_generator; clock := [-5; 1700000000000] |}
  = Raise (ValueError ClockMovedBackwards)
      {| self := default_generator; clock := [1700000000000] |}.
Proof.
  apply (proj1 (generate_id_first_call 1 1 default_generator (-5)
                  [1700000000000] eq_refl)).
  lia.
Defined.

(** X9. [_wait_for_next_millisecond] never raises and never assigns to
    the object.  When it returns, its result is a reading strictly above
    [last_timestamp], every reading it passed over was at most
    [last_timestamp] (a clock that went backwards meanwhile included),
    and the clock is left just after the reading returned.  It returns as
    soon as such a reading comes, and does not return when none does. *)
Theorem wait_for_next_millisecond_spec last g c :
  (∀ e w', _wait_for_next_millisecond last {| self := g; clock := c |}
           ≠ Raise e w') ∧
  (∀ t w', _wait_for_next_millisecond last {| self := g; clock := c |}
           = Return t w' →
     last < t ∧ self w' = g ∧
     ∃ pre, c = pre ++ t :: clock w' ∧ Forall (fun x => x <= last) pre) ∧
  (∀ pre t post,
     c = pre ++ t :: post → Forall (fun x => x <= last) pre → last < t →
     _wait_for_next_millisecond last {| self := g; clock := c |}
     = Return t {| self := g; clock := post |}) ∧
  (Forall (fun x => x <= last) c →
   _wait_for_next_millisecond last {| self := g; clock := c |} = Blocked).
Proof.
  assert (Hrun : _wait_for_next_millisecond last {| self := g; clock := c |}
                 = match c with
                   | [] => Blocked
                   | t1 :: c1 =>
                       match wait_loop last t1 c1 with
                       | None => Blocked
                       | Some (t, rest) =>
                           Return t {| self := g; clock := rest |}
                       end
                   end).
  { unfold _wait_for_next_millisecond, spin, mbind, M_bind. simpl.
    destruct c as [| t1 c1]; [reflexivity |]. simpl.
    destruct (wait_loop last t1 c1) as [[t rest] |]; reflexivity. }
  rewrite Hrun. clear Hrun. split; [| split; [| split]].
  - intros e w'. destruct c as [| t1 c1]; [discriminate |].
    destruct (wait_loop last t1 c1) as [[t rest] |]; discriminate.
  - intros t w'. destruct c as [| t1 c1]; [discriminate |].
    destruct (wait_loop last t1 c1) as [[t0 rest] |] eqn:Hloop;
      [| discriminate].
    intros [= <- <-].
    destruct (wait_loop_inv _ _ _ _ _ Hloop) as [Hlt [pre [Hsplit Hpre]]].
    split; [exact Hlt | split; [reflexivity |]].
    exists pre. split; [exact Hsplit | exact Hpre].
  - intros pre t post -> Hpre Ht.
    destruct Hpre as [| x pre Hx Hpre]; simpl.
    + destruct (Z.leb_spec t last); [lia |].
      destruct post; simpl; destruct (Z.leb_spec t last);
        (lia || reflexivity).
    + rewrite wait_loop_found by assumption. reflexivity.
  - intros Hc. destruct Hc as [| x c Hx Hc]; [reflexivity |].
    rewrite wait_loop_starved by assumption. reflexivity.
Qed.

Lemma wait_for_next_millisecond_spec_witness :
  _wait_for_next_millisecond 1700000000000
    {| self := default_generator;
       clock := [1700000000000; 1699999999990; 1700000000003; 5] |}
  = Return 1700000000003 {| self := default_generator; clock := [5] |}.
Proof.
  apply (proj1 (proj2 (proj2 (wait_for_next_millisecond_spec 1700000000000
                  default_generator
                  [1700000000000; 1699999999990; 1700000000003; 5])))
           [1700000000000; 1699999999990] 1700000000003 [5] eq_refl).
  - repeat constructor; lia.
  - lia.
Defined.

(** X10. A call of [generate_id] takes exactly one reading of the clock,
    unless that reading is the last timestamp again and the sequence
    number stands at 4095: on any other reading it returns or raises at
    once, and the rest of the clock is left as it was. *)
Theorem generate_id_one_reading dc wk w t c :
  reachable dc wk w → clock w = t :: c →
  t ≠ _last_timestamp (self w) ∨ _sequence_number (self w) ≠ 4095 →
  (∃ id w', generate_id w = Return id w' ∧ clock w' = c ∧
            _last_timestamp (self w') = t) ∨
  (∃ e w', generate_id w = Raise e w' ∧ clock w' = c).
Proof.
  intros Hw Hc Hcase. pose proof (reachable_configured _ _ _ Hw) as Hg.
  destruct w as [g c0]. simpl in *. subst c0.
  destruct (Z.lt_total t (_last_timestamp g)) as [Hlt | [Heq | Hgt]].
  - right. eexists _, _. split; [apply generate_id_backwards, Hlt |].
    reflexivity.
  - left. subst t. eexists _, _. split; [| split].
    + apply (generate_id_next dc wk g Hg).
      destruct Hg. destruct Hcase as [Hne | Hne]; [contradiction | lia].
    + reflexivity.
    + reflexivity.
  - left. eexists _, _. split; [apply generate_id_later, Hgt |].
    split; reflexivity.
Qed.

Lemma generate_id_one_reading_witness :
  (∃ id w', generate_id {| self := default_generator;
                           clock := [1700000000000; 3] |}
            = Return id w' ∧ clock w' = [3] ∧
            _last_timestamp (self w') = 1700000000000) ∨
  (∃ e w', generate_id {| self := default_generator;
                          clock := [1700000000000; 3] |}
           = Raise e w' ∧ clock w' = [3]).
Proof.
  apply (generate_id_one_reading 1 1
           {| self := default_generator; clock := [1700000000000; 3] |}
           1700000000000 [3]).
  - apply reach_init. reflexivity.
  - reflexivity.
  - left. simpl. lia.
Defined.

(** * Further properties of the module's functions *)

(** ** Shared lemmas: what each function does to the process *)

Lemma default_generator_init : __init__ 1 1 = inr default_generator.
Proof. reflexivity. Qed.

Lemma fresh_not_used (p : Process) : heap p !! fresh (dom (heap p)) = None.
Proof. apply not_elem_of_dom, is_fresh. Qed.

(** A method call on an object of the heap. *)
Lemma call_generate_id p l g :
  heap p !! l = Some g →
  call (Some l) generate_id p
  = match generate_id {| self := g; clock := wall_clock p |} with
    | Return a w =>
        Return a {| heap := <[l := self w]> (heap p);
                    _global_generator := _global_generator p;
                    wall_clock := clock w |}
    | Raise e w =>
        Raise e {| heap := <[l := self w]> (heap p);
                   _global_generator := _global_generator p;
                   wall_clock := clock w |}
    | Blocked => Blocked
    end.
Proof. intros Hl. unfold call. rewrite Hl. reflexivity. Qed.

Lemma get_global_id_generator_hit dc wk p l :
  _global_generator p = Some l →
  get_global_id_generator dc wk p = Return (Some l) p.
Proof.
  intros Hl.
  unfold get_global_id_generator, mbind, M_bind, get, mret, M_ret; simpl.
  rewrite Hl. simpl. rewrite Hl. reflexivity.
Qed.

Lemma get_global_id_generator_build dc wk p g :
  _global_generator p = None → __init__ dc wk = inr g →
  get_global_id_generator dc wk p
  = Return (Some (fresh (dom (heap p))))
      {| heap := <[fresh (dom (heap p)) := g]> (heap p);
         _global_generator := Some (fresh (dom (heap p)));
         wall_clock := wall_clock p |}.
Proof.
  intros Hnone Hg.
  unfold get_global_id_generator, new_SnowflakeIdGenerator, mbind, M_bind,
    get, mret, M_ret; simpl.
  repeat (simpl; first [rewrite Hnone | rewrite Hg]). reflexivity.
Qed.

Lemma get_global_id_generator_fail dc wk p e :
  _global_generator p = None → __init__ dc wk = inl e →
  get_global_id_generator dc wk p = Raise e p.
Proof.
  intros Hnone He.
  unfold get_global_id_generator, new_SnowflakeIdGenerator, mbind, M_bind,
    get, mret, M_ret; simpl.
  repeat (simpl; first [rewrite Hnone | rewrite He]). reflexivity.
Qed.

(** [generate_simple_id] when the instance exists: a call on it. *)
Lemma generate_simple_id_hit p l g :
  _global_generator p = Some l → heap p !! l = Some g →
  generate_simple_id p
  = match generate_id {| self := g; clock := wall_clock p |} with
    | Return a w =>
        Return a {| heap := <[l := self w]> (heap p);
                    _global_generator := Some l;
                    wall_clock := clock w |}
    | Raise e w =>
        Raise e {| heap := <[l := self w]> (heap p);
                   _global_generator := Some l;
                   wall_clock := clock w |}
    | Blocked => Blocked
    end.
Proof.
  intros Hl Hg. unfold generate_simple_id, mbind, M_bind at 1.
  rewrite (get_global_id_generator_hit _ _ _ _ Hl).
  rewrite (call_generate_id _ _ _ Hg), Hl. reflexivity.
Qed.

(** [generate_simple_id] when there is none yet: the generator with the
    ids 1 and 1 is built and stored, then called. *)
Lemma generate_simple_id_miss p :
  _global_generator p = None →
  let l := fresh (dom (heap p)) in
  generate_simple_id p
  = match generate_id {| self := default_generator;
                         clock := wall_clock p |} with
    | Return a w =>
        Return a {| heap := <[l := self w]> (heap p);
                    _global_generator := Some l;
                    wall_clock := clock w |}
    | Raise e w =>
        Raise e {| heap := <[l := self w]> (heap p);
                   _global_generator := Some l;
                   wall_clock := clock w |}
    | Blocked => Blocked
    end.
Proof.
  intros Hnone l. unfold generate_simple_id, mbind, M_bind at 1.
  rewrite (get_global_id_generator_build 1 1 p default_generator Hnone
             default_generator_init).
  fold l. unfold call. simpl. rewrite lookup_insert_eq.
  destruct (generate_id _) as [a w | e w |]; simpl;
    rewrite ?insert_insert_eq; reflexivity.
Qed.

(** [create_unique_id_with_prefix], by the outcome of the constructor and
    of the one call on the new generator. *)
Lemma create_unique_id_with_prefix_run prefix dc wk p :
  create_unique_id_with_prefix prefix dc wk p
  = match __init__ dc wk with
    | inl e => Raise e p
    | inr g =>
        let l := fresh (dom (heap p)) in
        match generate_id {| self := g; clock := wall_clock p |} with
        | Return id w =>
            Return (prefix +:+ str id)
              {| heap := <[l := self w]> (heap p);
                 _global_generator := _global_generator p;
                 wall_clock := clock w |}
        | Raise e w =>
            Raise e {| heap := <[l := self w]> (heap p);
                       _global_generator := _global_generator p;
                       wall_clock := clock w |}
        | Blocked => Blocked
        end
    end.
Proof.
  unfold create_unique_id_with_prefix, new_SnowflakeIdGenerator, call,
    mbind, M_bind, mret, M_ret.
  destruct (__init__ dc wk) as [e | g]; [reflexivity |].
  simpl. rewrite lookup_insert_eq.
  destruct (generate_id _) as [a w | e w |]; simpl;
    rewrite ?insert_insert_eq; reflexivity.
Qed.

(** ** Shared lemmas: the instance of the registry *)

Lemma registry_ok_start readings : registry_ok (start readings).
Proof. intros l Hl. discriminate Hl. Qed.

Lemma grows_refl p : registry_ok p → grows p p.
Proof.
  intros Hp. split; [exact Hp |]. intros g Hg. exists g.
  split; [exact Hg | lia].
Qed.

(** Storing an object at an unused address leaves the instance alone. *)
Lemma singleton_fresh p x c :
  registry_ok p →
  singleton {| heap := <[fresh (dom (heap p)) := x]> (heap p);
               _global_generator := _global_generator p;
               wall_clock := c |}
  = singleton p.
Proof.
  intros Hp. unfold singleton. simpl.
  destruct (_global_generator p) as [l |] eqn:Hglobal; [| reflexivity].
  destruct (Hp l Hglobal) as [dc [wk [g [Hl _]]]].
  apply lookup_insert_ne. intros Heq.
  pose proof (fresh_not_used p) as Hfresh. rewrite Heq in Hfresh. congruence.
Qed.

Lemma registry_ok_fresh p x c :
  registry_ok p →
  registry_ok {| heap := <[fresh (dom (heap p)) := x]> (heap p);
                 _global_generator := _global_generator p;
                 wall_clock := c |}.
Proof.
  intros Hp l Hl. simpl in Hl.
  destruct (Hp l Hl) as [dc [wk [g [Hg Hcfg]]]].
  exists dc, wk, g. split; [| exact Hcfg]. simpl.
  rewrite lookup_insert_ne; [exact Hg |]. intros Heq.
  pose proof (fresh_not_used p) as Hfresh. rewrite Heq in Hfresh. congruence.
Qed.

Lemma grows_fresh p x c :
  registry_ok p →
  grows p {| heap := <[fresh (dom (heap p)) := x]> (heap p);
             _global_generator := _global_generator p;
             wall_clock := c |}.
Proof.
  intros Hp. split; [apply registry_ok_fresh, Hp |].
  intros g Hg. exists g. rewrite singleton_fresh by exact Hp.
  split; [exact Hg | lia].
Qed.

(** Building the instance when there was none. *)
Lemma grows_build p dc wk g c :
  _global_generator p = None → configured dc wk g →
  grows p {| heap := <[fresh (dom (heap p)) := g]> (heap p);
             _global_generator := Some (fresh (dom (heap p)));
             wall_clock := c |}.
Proof.
  intros Hnone Hg. split.
  - intros l [= <-]. exists dc, wk, g. simpl.
    split; [apply lookup_insert_eq | exact Hg].
  - intros g0 Hg0. unfold singleton in Hg0. rewrite Hnone in Hg0.
    discriminate.
Qed.

(** A call of [generate_id] on the object at [l], seen from the registry. *)
Lemma grows_call p l g w :
  registry_ok p → heap p !! l = Some g →
  (∃ a, generate_id {| self := g; clock := wall_clock p |} = Return a w) ∨
  (∃ e, generate_id {| self := g; clock := wall_clock p |} = Raise e w) →
  grows p {| heap := <[l := self w]> (heap p);
             _global_generator := _global_generator p;
             wall_clock := clock w |}.
Proof.
  intros Hp Hl Hgen. split.
  - intros l0 Hl0. simpl in Hl0.
    destruct (Hp l0 Hl0) as [dc [wk [g0 [Hg0 Hcfg]]]]. simpl.
    destruct (decide (l = l0)) as [<- | Hne].
    + rewrite lookup_insert_eq. exists dc, wk, (self w).
      split; [reflexivity |].
      assert (g0 = g) as -> by congruence.
      destruct Hgen as [[a Hret] | [e Hraise]].
      * apply (generate_id_configured dc wk {| self := g; clock := wall_clock p |}
                     _ _ Hcfg Hret).
      * destruct (generate_id_Raise _ _ _ _ Hraise) as [_ [_ [_ [-> _]]]].
        exact Hcfg.
    + rewrite lookup_insert_ne by exact Hne.
      exists dc, wk, g0. split; [exact Hg0 | exact Hcfg].
  - intros g0 Hg0. unfold singleton in *. simpl.
    destruct (_global_generator p) as [l0 |] eqn:Hglobal; [| discriminate].
    destruct (decide (l = l0)) as [<- | Hne].
    + rewrite lookup_insert_eq. exists (self w). split; [reflexivity |].
      assert (g0 = g) as -> by congruence.
      destruct (Hp l Hglobal) as [dc [wk [g1 [Hg1 Hcfg]]]].
      assert (g1 = g) as -> by congruence.
      destruct Hgen as [[a Hret] | [e Hraise]].
      * destruct (generate_id_configured dc wk {| self := g; clock := wall_clock p |}
                     _ _ Hcfg Hret)
          as [_ [_ Hlt]]. simpl in Hlt.
        destruct (generate_id_configured dc wk {| self := g; clock := wall_clock p |}
                     _ _ Hcfg Hret)
          as [_ [Hid _]]. lia.
      * destruct (generate_id_Raise _ _ _ _ Hraise) as [_ [_ [_ [-> _]]]].
        lia.
    + rewrite lookup_insert_ne by exact Hne. exists g0.
      split; [exact Hg0 | lia].
Qed.

Lemma default_generator_configured : configured 1 1 default_generator.
Proof. apply init_configured, default_generator_init. Qed.

(** [generate_simple_id], seen from the registry. *)
Lemma generate_simple_id_grows p :
  registry_ok p →
  match generate_simple_id p with
  | Return a p' =>
      grows p p' ∧
      ∃ g', singleton p' = Some g' ∧ id_of g' = a ∧
            ∀ g, singleton p = Some g → id_of g < a
  | Raise e p' => grows p p' ∧ e = ValueError ClockMovedBackwards
  | Blocked => True
  end.
Proof.
  intros Hp. destruct (_global_generator p) as [l |] eqn:Hglobal.
  - destruct (Hp l Hglobal) as [dc [wk [g [Hl Hcfg]]]].
    rewrite (generate_simple_id_hit p l g Hglobal Hl).
    destruct (generate_id {| self := g; clock := wall_clock p |})
      as [a w | e w |] eqn:Hgen; [| | exact I].
    + pose proof (grows_call p l g w Hp Hl
                    (or_introl (ex_intro _ a Hgen))) as Hgrows.
      rewrite Hglobal in Hgrows. split; [exact Hgrows |].
      destruct (generate_id_configured dc wk
                  {| self := g; clock := wall_clock p |} _ _ Hcfg Hgen)
        as [_ [Hid Hlt]].
      exists (self w). unfold singleton. simpl.
      split; [apply lookup_insert_eq | split; [symmetry; exact Hid |]].
      intros g0. rewrite Hglobal, Hl. intros [= <-]. exact Hlt.
    + pose proof (grows_call p l g w Hp Hl
                    (or_intror (ex_intro _ e Hgen))) as Hgrows.
      rewrite Hglobal in Hgrows. split; [exact Hgrows |].
      destruct (generate_id_Raise _ _ _ _ Hgen) as [_ [_ [_ [_ He]]]].
      exact He.
  - rewrite (generate_simple_id_miss p Hglobal).
    destruct (generate_id {| self := default_generator;
                             clock := wall_clock p |})
      as [a w | e w |] eqn:Hgen; [| | exact I].
    + destruct (generate_id_configured 1 1
                  {| self := default_generator; clock := wall_clock p |}
                  _ _ default_generator_configured Hgen)
        as [Hcfg [Hid _]].
      split; [apply (grows_build p 1 1); assumption |].
      exists (self w). unfold singleton. simpl.
      split; [apply lookup_insert_eq | split; [symmetry; exact Hid |]].
      intros g0. rewrite Hglobal. discriminate.
    + destruct (generate_id_Raise _ _ _ _ Hgen) as [_ [_ [_ [Hself He]]]].
      split; [| exact He].
      apply (grows_build p 1 1); [exact Hglobal |].
      rewrite Hself. exact default_generator_configured.
Qed.

(** Every request leaves the registry in order and its instance, if
    there was one, in place. *)
Lemma serve_grows r p :
  registry_ok p →
  match serve r p with
  | Return _ p' => grows p p'
  | Raise _ p' => grows p p'
  | Blocked => True
  end.
Proof.
  intros Hp. destruct r as [| dc wk | prefix dc wk | dc wk | obj];
    unfold serve, mbind, M_bind, mret, M_ret.
  - pose proof (generate_simple_id_grows p Hp) as Hgen.
    destruct (generate_simple_id p) as [a p' | e p' |];
      [apply Hgen | apply Hgen | exact I].
  - destruct (_global_generator p) as [l |] eqn:Hglobal.
    + rewrite (get_global_id_generator_hit _ _ _ _ Hglobal).
      apply grows_refl, Hp.
    + destruct (__init__ dc wk) as [e | g] eqn:Hinit.
      * rewrite (get_global_id_generator_fail _ _ _ _ Hglobal Hinit).
        apply grows_refl, Hp.
      * rewrite (get_global_id_generator_build _ _ _ _ Hglobal Hinit).
        apply (grows_build p dc wk); [exact Hglobal |].
        apply init_configured, Hinit.
  - rewrite create_unique_id_with_prefix_run.
    destruct (__init__ dc wk) as [e | g]; [apply grows_refl, Hp |].
    simpl. destruct (generate_id _) as [a w | e w |];
      [apply grows_fresh, Hp | apply grows_fresh, Hp | exact I].
  - unfold create_custom_generator, new_SnowflakeIdGenerator.
    destruct (__init__ dc wk) as [e | g]; [apply grows_refl, Hp |].
    apply grows_fresh, Hp.
  - destruct (heap p !! obj) as [g |] eqn:Hobj.
    + rewrite (call_generate_id p obj g Hobj).
      destruct (generate_id {| self := g; clock := wall_clock p |})
        as [a w | e w |] eqn:Hgen; [| | exact I].
      * apply (grows_call p obj g w Hp Hobj). left. exists a. exact Hgen.
      * apply (grows_call p obj g w Hp Hobj). right. exists e. exact Hgen.
    + unfold call. rewrite Hobj. exact I.
Qed.

(** An identifier [generate_simple_id] returns later in a run is above
    the one the instance stands at. *)
Lemma session_above rs : ∀ p g j b,
  registry_ok p → singleton p = Some g →
  rs !! j = Some GenerateSimpleId →
  session rs p !! j = Some (Id b) →
  id_of g < b.
Proof.
  induction rs as [| r rs IH]; intros p g j b Hp Hg Hr Hb; [discriminate |].
  simpl in Hb. pose proof (serve_grows r p Hp) as Hgrows.
  destruct j as [| j].
  - injection Hr as ->.
    pose proof (generate_simple_id_grows p Hp) as Hgen.
    unfold serve, mbind, M_bind, mret, M_ret in Hb.
    destruct (generate_simple_id p) as [a p' | e p' |];
      [| discriminate | discriminate].
    injection Hb as ->. destruct Hgen as [_ [g' [_ [_ Hlt]]]].
    apply Hlt, Hg.
  - destruct (serve r p) as [resp p' | e p' |]; [| | discriminate];
      destruct Hgrows as [Hp' Hkeep];
      destruct (Hkeep g Hg) as [g' [Hg' Hle]];
      specialize (IH p' g' j b Hp' Hg' Hr Hb); lia.
Qed.

(** ** Shared lemmas: fields, construction and decimal digits *)


Lemma init_fails dc wk :
  ¬ (0 <= dc <= 31 ∧ 0 <= wk <= 31) →
  ∃ m, __init__ dc wk = inl (ValueError m).
Proof.
  intros Hbad. unfold __init__, _validate_ids.
  change (_calculate_max_value DATACENTER_ID_BITS) with 31.
  change (_calculate_max_value WORKER_ID_BITS) with 31.
  destruct (Z.leb_spec 0 dc), (Z.leb_spec dc 31),
           (Z.leb_spec 0 wk), (Z.leb_spec wk 31); simpl;
    first [eexists; reflexivity | exfalso; apply Hbad; lia].
Qed.

Lemma init_succeeds dc wk :
  0 <= dc <= 31 → 0 <= wk <= 31 → ∃ g, __init__ dc wk = inr g.
Proof.
  intros Hdc Hwk. unfold __init__.
  rewrite (proj2 (validate_ids_ok dc wk) (conj Hdc Hwk)).
  eexists. reflexivity.
Qed.

(** [str] writes different integers differently. *)
Lemma str_inj a b : str a = str b → a = b.
Proof.
  intros Heq. apply DecimalZ.to_int_inj.
  assert (Hread : ∀ z, NilZero.int_of_string (str z) = Some (Z.to_int z)).
  { intros z. apply NilZero.isi; destruct z; simpl; try discriminate;
      intros [= Hnil]; exact (DecimalPos.Unsigned.to_uint_nonnil _ Hnil). }
  pose proof (Hread a) as Ha. rewrite Heq, Hread in Ha. congruence.
Qed.

(** ** [generate_simple_id] *)

(** X11. In any run of the module's functions, in any order and with any
    arguments, the identifiers [generate_simple_id] returns are strictly
    increasing, hence all different: a later call returns a larger one,
    whatever was called in between. *)
Theorem generate_simple_id_increasing rs p i j a b :
  registry_ok p → (i < j)%nat →
  rs !! i = Some GenerateSimpleId →
  rs !! j = Some GenerateSimpleId →
  session rs p !! i = Some (Id a) →
  session rs p !! j = Some (Id b) →
  a < b.
Proof.
  revert p i j. induction rs as [| r rs IH]; intros p i j Hp Hij Hi Hj Ha Hb;
    [discriminate |].
  destruct j as [| j]; [lia |]. simpl in Ha, Hb.
  pose proof (serve_grows r p Hp) as Hgrows.
  destruct i as [| i].
  - injection Hi as ->.
    pose proof (generate_simple_id_grows p Hp) as Hgen.
    unfold serve, mbind, M_bind, mret, M_ret in Ha, Hb.
    destruct (generate_simple_id p) as [a0 p' | e p' |];
      [| discriminate | discriminate].
    injection Ha as ->. destruct Hgen as [[Hp' _] [g' [Hg' [<- _]]]].
    apply (session_above rs p' g' j b Hp' Hg' Hj Hb).
  - destruct (serve r p) as [resp p' | e p' |]; [| | discriminate];
      destruct Hgrows as [Hp' _];
      apply (IH p' i j Hp' ltac:(lia) Hi Hj Ha Hb).
Qed.

Lemma generate_simple_id_increasing_witness :
  1724551110456381440 < 1724551110456381441.
Proof.
  apply (generate_simple_id_increasing
           [GenerateSimpleId; CreateUniqueIdWithPrefix "USER_" 1 1;
            GetGlobalIdGenerator 5 5; GenerateSimpleId]
           (start [1700000000000; 1700000000000; 1700000000000]) 0 3).
  - apply registry_ok_start.
  - lia.
  - reflexivity.
  - reflexivity.
  - reflexivity.
  - reflexivity.
Defined.



(** X13. With the registry in order, [generate_simple_id] raises nothing
    but the clock [ValueError]: never a configuration error, never an
    [AttributeError].  It does so on a reading below the last timestamp
    of the instance (below -1 when it has just built it); the one reading
    is used up, the instance is in the registry afterwards, and an
    instance that was there before is unchanged. *)
Theorem generate_simple_id_raises p e p' :
  registry_ok p →
  generate_simple_id p = Raise e p' →
  e = ValueError ClockMovedBackwards ∧
  ∃ t g',
    wall_clock p = t :: wall_clock p' ∧
    singleton p' = Some g' ∧ t < _last_timestamp g' ∧
    (∀ g, singleton p = Some g → g' = g) ∧
    (_global_generator p = None → g' = default_generator).
Proof.
  intros Hp Hgen. destruct (_global_generator p) as [l |] eqn:Hglobal.
  - destruct (Hp l Hglobal) as [dc [wk [g [Hl Hcfg]]]].
    rewrite (generate_simple_id_hit p l g Hglobal Hl) in Hgen.
    destruct (generate_id {| self := g; clock := wall_clock p |})
      as [a w | e0 w |] eqn:Hcall; [discriminate | | discriminate].
    injection Hgen as -> <-.
    destruct (generate_id_Raise _ _ _ _ Hcall) as [t [Hc [Hlt [Hself He]]]].
    split; [exact He |]. exists t, g. unfold singleton. simpl.
    rewrite Hself, lookup_insert_eq, Hglobal, Hl.
    repeat split; try assumption; [congruence | discriminate].
  - rewrite (generate_simple_id_miss p Hglobal) in Hgen.
    destruct (generate_id {| self := default_generator;
                             clock := wall_clock p |})
      as [a w | e0 w |] eqn:Hcall; [discriminate | | discriminate].
    injection Hgen as -> <-.
    destruct (generate_id_Raise _ _ _ _ Hcall) as [t [Hc [Hlt [Hself He]]]].
    split; [exact He |]. exists t, default_generator. unfold singleton. simpl.
    rewrite Hself, lookup_insert_eq, Hglobal.
    repeat split; try assumption; discriminate.
Qed.

Lemma generate_simple_id_raises_witness :
  ∃ p', generate_simple_id (start [-2; 1700000000000])
        = Raise (ValueError ClockMovedBackwards) p' ∧
        wall_clock p' = [1700000000000] ∧
        singleton p' = Some default_generator.
Proof.
  eexists. split; [reflexivity |].
  destruct (generate_simple_id_raises (start [-2; 1700000000000]) _ _
              (registry_ok_start _) eq_refl)
    as [_ [t [g' [Hclock [Hg' [_ [_ Hdefault]]]]]]].
  split; [reflexivity |]. rewrite Hg', (Hdefault eq_refl). reflexivity.
Defined.

(** ** [create_unique_id_with_prefix] and [create_custom_generator] *)

(** X14. [create_unique_id_with_prefix] with an id outside 0..31 raises
    the [ValueError] of the constructor and leaves the process as it was:
    no object is made and the clock is not read.  With ids in range it
    reads the clock exactly once and never waits: on a reading below -1
    it raises the clock [ValueError], on any other reading it returns;
    [_global_generator] is as before either way. *)
Theorem create_unique_id_with_prefix_outcomes prefix dc wk p :
  (¬ (0 <= dc <= 31 ∧ 0 <= wk <= 31) →
   ∃ m, create_unique_id_with_prefix prefix dc wk p
        = Raise (ValueError m) p) ∧
  (0 <= dc <= 31 ∧ 0 <= wk <= 31 →
   ∀ t c, wall_clock p = t :: c →
     (t < -1 →
      ∃ p', create_unique_id_with_prefix prefix dc wk p
            = Raise (ValueError ClockMovedBackwards) p' ∧
            wall_clock p' = c ∧
            _global_generator p' = _global_generator p) ∧
     (-1 <= t →
      ∃ s p', create_unique_id_with_prefix prefix dc wk p = Return s p' ∧
              wall_clock p' = c ∧
              _global_generator p' = _global_generator p)).
Proof.
  split.
  - intros Hbad. destruct (init_fails dc wk Hbad) as [m Hm].
    exists m. rewrite create_unique_id_with_prefix_run, Hm. reflexivity.
  - intros [Hdc Hwk] t c Hclock.
    destruct (init_succeeds dc wk Hdc Hwk) as [g Hg].
    assert (Hlast : _last_timestamp g = -1)
      by (apply init_inv in Hg as [_ ->]; reflexivity).
    assert (Hseq : _sequence_number g = 0)
      by (apply init_inv in Hg as [_ ->]; reflexivity).
    rewrite create_unique_id_with_prefix_run, Hg, Hclock. simpl. split.
    + intros Ht. rewrite generate_id_backwards by lia.
      eexists. repeat split.
    + intros Ht. destruct (Z.eq_dec t (-1)) as [-> | Hne].
      * rewrite <- Hlast.
        rewrite (generate_id_next dc wk g (init_configured _ _ _ Hg))
          by lia.
        eexists _, _. repeat split.
      * rewrite generate_id_later by lia.
        eexists _, _. repeat split.
Qed.

Lemma create_unique_id_with_prefix_outcomes_witness :
  ∃ m, create_unique_id_with_prefix "USER_" 1 32 (start [1700000000000])
       = Raise (ValueError m) (start [1700000000000]).
Proof.
  apply (proj1 (create_unique_id_with_prefix_outcomes "USER_" 1 32
                  (start [1700000000000]))).
  lia.
Defined.

(** X15. Two calls of [create_unique_id_with_prefix] with the same prefix
    and ids, each on a reading of 0 or more, return the same string
    exactly when they read the same millisecond: different milliseconds
    give different strings. *)
Theorem create_unique_id_with_prefix_distinct
    prefix dc wk p t c s p' q t' c' s' q' :
  wall_clock p = t :: c → 0 <= t →
  wall_clock q = t' :: c' → 0 <= t' →
  create_unique_id_with_prefix prefix dc wk p = Return s p' →
  create_unique_id_with_prefix prefix dc wk q = Return s' q' →
  (s = s' ↔ t = t').
Proof.
  intros Hp Ht Hq Ht'. rewrite !create_unique_id_with_prefix_run.
  destruct (__init__ dc wk) as [e | g] eqn:Hg; [discriminate |].
  pose proof (init_configured _ _ _ Hg) as Hcfg.
  assert (Hlast : _last_timestamp g = -1)
    by (apply init_inv in Hg as [_ ->]; reflexivity).
  simpl. rewrite Hp, Hq, !generate_id_later by lia.
  intros [= <- _] [= <- _]. split.
  - intros Heq. apply String.app_inj, str_inj in Heq.
    rewrite (id_of_sum dc wk), (id_of_sum dc wk) in Heq
      by (apply configured_update; [exact Hcfg | lia]).
    simpl in Heq. lia.
  - intros ->. reflexivity.
Qed.

Lemma create_unique_id_with_prefix_distinct_witness :
  "USER_1724551110456381440" = "USER_1724551110460575744"
  ↔ 1700000000000 = 1700000000001.
Proof.
  pose proof (create_unique_id_with_prefix_run "USER_" 1 1
                (start [1700000000000])) as Hp.
  pose proof (create_unique_id_with_prefix_run "USER_" 1 1
                (start [1700000000001])) as Hq.
  exact (create_unique_id_with_prefix_distinct "USER_" 1 1
           (start [1700000000000]) 1700000000000 [] _ _
           (start [1700000000001]) 1700000000001 [] _ _
           eq_refl ltac:(lia) eq_refl ltac:(lia) Hp Hq).
Defined.

(** X16. What the example script does: when the registry is empty,
    [generate_simple_id] followed in the same millisecond by
    [create_unique_id_with_prefix] with its default ids returns an
    identifier and then the prefix followed by the digits of that very
    identifier. *)
Theorem generate_simple_id_then_prefix prefix p t c :
  _global_generator p = None →
  wall_clock p = t :: t :: c → 0 <= t →
  ∃ a p1 p2,
    generate_simple_id p = Return a p1 ∧
    create_unique_id_with_prefix prefix 1 1 p1
    = Return (prefix +:+ str a) p2.
Proof.
  intros Hnone Hclock Ht.
  rewrite (generate_simple_id_miss p Hnone), Hclock.
  rewrite generate_id_later by (simpl; lia).
  eexists _, _, _. split; [reflexivity |].
  rewrite create_unique_id_with_prefix_run, default_generator_init. simpl.
  rewrite generate_id_later by (simpl; lia). reflexivity.
Qed.

Lemma generate_simple_id_then_prefix_witness :
  ∃ a p1 p2,
    generate_simple_id (start [1700000000000; 1700000000000])
    = Return a p1 ∧
    create_unique_id_with_prefix "USER_" 1 1 p1
    = Return ("USER_" +:+ str a) p2.
Proof.
  apply (generate_simple_id_then_prefix "USER_"
           (start [1700000000000; 1700000000000]) 1700000000000 []);
    [reflexivity | reflexivity | lia].
Defined.



(** ** How many identifiers a millisecond can hold *)

Lemma issued_shape dc wk n : ∀ w id,
  configured dc wk (self w) → id ∈ issued (calls n w) →
  ∃ t s, id = (t - EPOCH_TIMESTAMP) * 4194304 + dc * 131072 + wk * 4096 + s
         ∧ 0 <= s <= 4095.
Proof.
  induction n as [| n IH]; intros w id Hw Hin; [inversion Hin |].
  rewrite calls_step in Hin.
  destruct (generate_id w) as [a w' | e w' |] eqn:Hgen.
  - destruct (generate_id_configured _ _ _ _ _ Hw Hgen) as [Hw' [Ha _]].
    simpl in Hin. apply elem_of_cons in Hin as [-> | Hin].
    + exists (_last_timestamp (self w')), (_sequence_number (self w')).
      split; [rewrite Ha; apply id_of_sum, Hw' | apply Hw'].
    + apply (IH w' id Hw' Hin).
  - destruct w as [g c].
    destruct (generate_id_Raise _ _ _ _ Hgen) as [_ [_ [_ [Hself _]]]].
    simpl in Hin. apply (IH w' id); [rewrite Hself; exact Hw | exact Hin].
  - inversion Hin.
Qed.

(** X18. One instance returns at most 4096 identifiers with the same
    timestamp field: whatever the clock does and however many calls are
    made, no millisecond holds more than 4096 of its identifiers. *)
Theorem at_most_4096_per_millisecond dc wk g c n delta :
  __init__ dc wk = inr g →
  (length (filter (fun id => Z.shiftr id 22 = delta)
                  (issued (calls n {| self := g; clock := c |})))
   <= 4096)%nat.
Proof.
  intros Hg. pose proof (init_configured _ _ _ Hg) as Hcfg.
  set (ids := issued (calls n {| self := g; clock := c |})).
  set (base := delta * 4194304 + dc * 131072 + wk * 4096).
  change 4096%nat with (Z.to_nat 4096).
  rewrite <- (length_seqZ 0 4096),
    <- (length_fmap (fun s => base + s) (seqZ 0 4096)).
  apply submseteq_length, NoDup_submseteq.
  - apply NoDup_filter, sorted_lt_NoDup, (calls_sorted dc wk), Hcfg.
  - intros id Hid. apply list_elem_of_filter in Hid as [Hdelta Hid].
    destruct (issued_shape dc wk n {| self := g; clock := c |} id Hcfg Hid)
      as [t [s [-> Hs]]].
    apply list_elem_of_fmap. exists s. split.
    + rewrite Z.shiftr_div_pow2 in Hdelta by lia.
      change (2 ^ 22) with 4194304 in Hdelta. destruct Hcfg.
      unfold base. Z.div_mod_to_equations. lia.
    + apply elem_of_seqZ. lia.
Qed.

Lemma at_most_4096_per_millisecond_witness :
  (length (filter (fun id => Z.shiftr id 22 = 411165025343%Z)
             (issued (calls 3 {| self := default_generator;
                                 clock := [1700000000000; 1700000000000;
                                           1700000000001]%Z |})))
   <= 4096)%nat.
Proof.
  apply (at_most_4096_per_millisecond 1 1). reflexivity.
Defined.
